(** * QpPiecewiseJerkPathOptimizer: lateral bounds and path synthesis

    A shallow embedding of
    [modules/planning/toolkits/optimizers/qp_piecewise_jerk_path/qp_piecewise_jerk_path_optimizer.cc]
    and the properties of its lateral corridor ([GetLateralBounds]) and of
    its orchestration ([Process]).

    Conventions of the embedding.
    - A [double] is a rational number ([Q]): the finite, non-NaN values with
      exact arithmetic.  Comparisons, [std::min], [std::max] and assignments
      are exact on doubles as well; the rounding of [+], [-], [*] and [/] is
      not modelled.  A division by zero gives no finite number ([fdiv]).
      The statements are written with the expressions of the code (the
      station as the first loop accumulates it, the quotient that
      [find_s_iter] converts), not with expressions that equal them in
      exact arithmetic only.
    - A conversion from [double] to an integer type truncates toward zero and
      is undefined when the truncated value does not fit the target type
      (C++ [conv.fpint]); undefined behaviour is the outcome [Undefined].
    - An iterator into [lateral_bounds] is the index of its element; [end()]
      is the length of the vector.
    - The reference line is queried through [GetLaneWidth] and
      [GetRoadWidth]; every call is recorded in the outcome, so that
      "is not queried" is a statement about the recorded calls. *)

From Stdlib Require Import String QArith Qminmax Qround ZArith List Bool Lia.
Import ListNotations.

Local Open Scope Q_scope.

(** ** Numbers *)

(** [a < b] on doubles. *)
Definition Qltb (a b : Q) : bool :=
  match a ?= b with
  | Lt => true
  | _ => false
  end.

Module Std.

(** [std::min(a, b)] is [(b < a) ? b : a]. *)
Definition min (a b : Q) : Q := if Qltb b a then b else a.

(** [std::max(a, b)] is [(a < b) ? b : a]. *)
Definition max (a b : Q) : Q := if Qltb a b then b else a.

(** [std::fmax] on two numbers: the larger one. *)
Definition fmax (a b : Q) : Q := if Qltb a b then b else a.

(** [std::max] and [std::min] on integers. *)
Definition maxz (a b : Z) : Z := if (a <? b)%Z then b else a.
Definition minz (a b : Z) : Z := if (b <? a)%Z then b else a.

End Std.

(** The quotient of two doubles, when it is a finite number. *)
Definition fdiv (a b : Q) : option Q :=
  if Qeq_bool b 0 then None else Some (a / b).

(** Truncation toward zero. *)
Definition trunc (q : Q) : Z := Z.quot (Qnum q) (Z.pos (Qden q)).

Definition INT_MIN : Z := (- 2 ^ 31)%Z.
Definition INT_MAX : Z := (2 ^ 31 - 1)%Z.
Definition SIZE_MAX : Z := (2 ^ 64 - 1)%Z.

(** [static_cast<int>(q)]. *)
Definition static_cast_int (q : Q) : option Z :=
  let t := trunc q in
  if ((INT_MIN <=? t) && (t <=? INT_MAX))%Z then Some t else None.

(** [static_cast<size_t>(q)]. *)
Definition static_cast_size_t (q : Q) : option Z :=
  let t := trunc q in
  if ((0 <=? t) && (t <=? SIZE_MAX))%Z then Some t else None.

(** ** Outcomes of a call *)

Inductive Query : Type :=
| LaneWidthQuery (s : Q)
| RoadWidthQuery (s : Q).

(** A call returns a value, having made some queries to the reference line;
    or its behaviour is undefined; or a debug assertion aborts it. *)
Inductive Run (A : Type) : Type :=
| Returns (a : A) (queries : list Query)
| Undefined
| Aborted.

Arguments Returns {A} a queries.
Arguments Undefined {A}.
Arguments Aborted {A}.

Definition ret {A : Type} (a : A) : Run A := Returns a [].

Definition bind {A B : Type} (m : Run A) (k : A -> Run B) : Run B :=
  match m with
  | Returns a q1 =>
      match k a with
      | Returns b q2 => Returns b (q1 ++ q2)
      | Undefined => Undefined
      | Aborted => Aborted
      end
  | Undefined => Undefined
  | Aborted => Aborted
  end.

Definition defined {A : Type} (o : option A) : Run A :=
  match o with
  | Some a => ret a
  | None => Undefined
  end.

Notation "x <- m ;; k" := (bind m (fun x => k))
  (at level 61, m at next level, right associativity).
Notation "' pat <- m ;; k" := (bind m (fun x => match x with pat => k end))
  (at level 61, pat pattern, m at next level, right associativity).

(** The value a call returns, if it returns. *)
Definition value {A : Type} (m : Run A) : option A :=
  match m with
  | Returns a _ => Some a
  | _ => None
  end.

(** The queries a call has made, if it returns. *)
Definition queries_of {A : Type} (m : Run A) : option (list Query) :=
  match m with
  | Returns _ q => Some q
  | _ => None
  end.

(** ** Data

    The messages and classes below are declared outside this file; each is
    modelled by the accessors that the file calls on it. *)

Module SLBoundary.
Record t : Type := Build { start_s : Q; end_s : Q; start_l : Q; end_l : Q }.
End SLBoundary.

Module FrenetFramePoint.
Record t : Type := Build { s : Q; l : Q; dl : Q; ddl : Q }.
Definition set_s (p : t) (s' : Q) : t := Build s' (l p) (dl p) (ddl p).
End FrenetFramePoint.

(** Only [v()] of the planning start point is read here; the pose goes to
    [GetFrenetPoint] as a whole. *)
Module TrajectoryPoint.
Record t : Type := Build { x : Q; y : Q; theta : Q; v : Q }.
End TrajectoryPoint.

Module Obstacle.
Record t : Type := Build { IsStatic : bool }.
End Obstacle.

Module PathObstacle.
Record t : Type :=
  Build { obstacle : Obstacle.t; PerceptionSLBoundary : SLBoundary.t }.
End PathObstacle.

(** Modelled from the spec: the reference line is declared outside this
    file; it answers [GetLaneWidth(s)] and [GetRoadWidth(s)] with a pair
    [(left, right)], the values of the two out-parameters after the call,
    and projects a pose to a Frenet point. *)
Module ReferenceLine.
Record t : Type :=
  Build { lane_width : Q -> Q * Q;
          road_width : Q -> Q * Q;
          GetFrenetPoint : TrajectoryPoint.t -> FrenetFramePoint.t }.

Definition GetLaneWidth (r : t) (s : Q) : Run (Q * Q) :=
  Returns (lane_width r s) [LaneWidthQuery s].

Definition GetRoadWidth (r : t) (s : Q) : Run (Q * Q) :=
  Returns (road_width r s) [RoadWidthQuery s].
End ReferenceLine.

(** [reference_line_info_]: the vehicle's SL boundary and the items of
    [path_decision()->path_obstacles()], in order. *)
Module ReferenceLineInfo.
Record t : Type :=
  Build { AdcSlBoundary : SLBoundary.t;
          path_obstacles : list PathObstacle.t }.
End ReferenceLineInfo.

Module QpPiecewiseJerkPathConfig.
Record t : Type :=
  Build { lateral_buffer : Q;
          qp_delta_s : Q;
          min_look_ahead_time : Q;
          min_look_ahead_distance : Q }.
End QpPiecewiseJerkPathConfig.

(** ** The vector of bounds and its iterators *)

Definition Bounds : Type := list (Q * Q).

Section Vector.

Variable v : Bounds.

(** [first, last) is a range of [v]. *)
Definition valid_range (first last : nat) : bool :=
  ((first <=? last) && (last <=? length v))%nat.

(** The element at [iter]; dereferencing [end()] is undefined. *)
Definition deref (iter : nat) : option (Q * Q) := nth_error v iter.

Definition at_ (iter : nat) : Q * Q := nth iter v (0, 0).

Section Elements.

Variable comp : Q * Q -> Q * Q -> bool.

(** The loop of [std::min_element]: while [++first != last], if [comp]
    holds of the element at [first] and the one at [smallest], then
    [smallest = first]; with [n] iterations left and [first] already
    advanced. *)
Fixpoint min_element_loop (smallest first n : nat) : nat :=
  match n with
  | O => smallest
  | S n' =>
      min_element_loop
        (if comp (at_ first) (at_ smallest) then first else smallest)
        (S first) n'
  end.

Definition min_element (first last : nat) : option nat :=
  if negb (valid_range first last) then None
  else if (first =? last)%nat then Some last
  else Some (min_element_loop first (S first) (last - S first)).

(** The loop of [std::max_element]: while [++first != last], if [comp]
    holds of the element at [largest] and the one at [first], then
    [largest = first]. *)
Fixpoint max_element_loop (largest first n : nat) : nat :=
  match n with
  | O => largest
  | S n' =>
      max_element_loop
        (if comp (at_ largest) (at_ first) then first else largest)
        (S first) n'
  end.

Definition max_element (first last : nat) : option nat :=
  if negb (valid_range first last) then None
  else if (first =? last)%nat then Some last
  else Some (max_element_loop first (S first) (last - S first)).

End Elements.

Definition min_pair_first (begin end_ : nat) : option nat :=
  min_element (fun lhs rhs => Qltb (fst lhs) (fst rhs)) begin end_.

Definition max_pair_second (begin end_ : nat) : option nat :=
  max_element (fun lhs rhs => Qltb (snd lhs) (snd rhs)) begin end_.

End Vector.

(** [iter->first = first] and [iter->second = second]. *)
Fixpoint set_first (v : Bounds) (iter : nat) (first : Q) : Bounds :=
  match v, iter with
  | [], _ => []
  | p :: rest, O => (first, snd p) :: rest
  | p :: rest, S i => p :: set_first rest i first
  end.

Fixpoint set_second (v : Bounds) (iter : nat) (second : Q) : Bounds :=
  match v, iter with
  | [], _ => []
  | p :: rest, O => (fst p, second) :: rest
  | p :: rest, S i => p :: set_second rest i second
  end.

(** [for (auto iter = begin; iter != end; ++iter) iter->first = first;]
    with [n] iterations left. *)
Fixpoint assign_first_loop (v : Bounds) (iter n : nat) (first : Q) : Bounds :=
  match n with
  | O => v
  | S n' => assign_first_loop (set_first v iter first) (S iter) n' first
  end.

Fixpoint assign_second_loop (v : Bounds) (iter n : nat) (second : Q) : Bounds :=
  match n with
  | O => v
  | S n' => assign_second_loop (set_second v iter second) (S iter) n' second
  end.

Definition assign_pair_first (v : Bounds) (begin end_ : nat) (first : Q)
  : option Bounds :=
  if valid_range v begin end_
  then Some (assign_first_loop v begin (end_ - begin) first)
  else None.

Definition assign_pair_second (v : Bounds) (begin end_ : nat) (second : Q)
  : option Bounds :=
  if valid_range v begin end_
  then Some (assign_second_loop v begin (end_ - begin) second)
  else None.

(** ** GetLateralBounds *)

Section GetLateralBounds.

(** The members [config_] and [reference_line_info_]. *)
Variable config_ : QpPiecewiseJerkPathConfig.t.
Variable reference_line_info_ : ReferenceLineInfo.t.

(** The arguments. *)
Variable adc_sl : SLBoundary.t.
Variable frenet_point : FrenetFramePoint.t.
Variable qp_delta_s : Q.
Variable path_length : Q.
Variable reference_line : ReferenceLine.t.

(** [int size = std::max(2, static_cast<int>(path_length / qp_delta_s))] *)
Definition bounds_size : option Z :=
  match fdiv path_length qp_delta_s with
  | Some q =>
      match static_cast_int q with
      | Some n => Some (Std.maxz 2 n)
      | None => None
      end
  | None => None
  end.

Definition buffered_adc_width : Q :=
  SLBoundary.end_l adc_sl - SLBoundary.start_l adc_sl
  + QpPiecewiseJerkPathConfig.lateral_buffer config_.

(** One station of the first loop: the bound at [accumulated_s]. *)
Definition expand_at (accumulated_s : Q) : Run (Q * Q) :=
  lane <- ReferenceLine.GetLaneWidth reference_line accumulated_s ;;
  let left := fst lane in
  let right := snd lane in
  let adc_off_left := Qltb left (SLBoundary.end_l adc_sl) in
  let adc_off_right := Qltb (SLBoundary.start_l adc_sl) (- right) in
  if adc_off_left || adc_off_right then
    road <- ReferenceLine.GetRoadWidth reference_line accumulated_s ;;
    let road_left := fst road in
    let road_right := snd road in
    if adc_off_left then
      ret (- right, Std.min (SLBoundary.end_l adc_sl) road_left)
    else
      ret (Std.max (SLBoundary.start_l adc_sl) (- road_right), left)
  else
    ret (- right, left).

(** The first loop, over the elements of [lateral_bounds] that are left;
    it returns the vector and [accumulated_s] as the loop leaves them. *)
Fixpoint expand (lateral_bounds : Bounds) (accumulated_s : Q)
  : Run (Bounds * Q) :=
  match lateral_bounds with
  | [] => ret ([], accumulated_s)
  | _ :: rest =>
      bound <- expand_at accumulated_s ;;
      '(rest', s') <- expand rest (accumulated_s + qp_delta_s) ;;
      ret (bound :: rest', s')
  end.

Section Shrink.

Variable start_s : Q.
Variable accumulated_s : Q.

(** The lambda [find_s_iter]. *)
Definition find_s_iter (lateral_bounds : Bounds) (s : Q) : option nat :=
  match fdiv (s - start_s) qp_delta_s with
  | Some q =>
      match static_cast_size_t q with
      | Some k =>
          let size := length lateral_bounds in
          let iter := Z.to_nat (Std.minz (Z.of_nat size) k) in
          if (iter =? size)%nat then
            match iter with
            | O => None
            | S iter' => Some iter'
            end
          else Some iter
      | None => None
      end
  | None => None
  end.

(** The body of the loop over the obstacles, past its tests: the
    parallel obstacles and the general ones. *)
Definition handle_obstacle (lateral_bounds : Bounds)
           (obstacle_sl : SLBoundary.t) (start_iter end_iter : nat)
           (l_lower l_upper : Q) : Run Bounds :=
  if Qltb (SLBoundary.end_s obstacle_sl) (SLBoundary.end_s adc_sl) then
    if Qltb (SLBoundary.end_l adc_sl) (SLBoundary.start_l obstacle_sl) then
      defined (assign_pair_second lateral_bounds start_iter end_iter
                 (SLBoundary.start_l obstacle_sl))
    else
      defined (assign_pair_first lateral_bounds start_iter end_iter
                 (SLBoundary.end_l obstacle_sl))
  else
  let left_remain := l_upper - SLBoundary.end_l obstacle_sl in
  let right_remain := - l_lower + SLBoundary.start_l obstacle_sl in
  '(l_lower, l_upper) <-
    (if Qltb buffered_adc_width left_remain then
       ret (Std.max l_lower (SLBoundary.end_l obstacle_sl), l_upper)
     else if Qltb buffered_adc_width right_remain then
       ret (l_lower, Std.min l_upper (SLBoundary.start_l obstacle_sl))
     else if Qltb (SLBoundary.start_l obstacle_sl
                   * SLBoundary.end_l obstacle_sl) 0 then
       ret (l_lower, l_upper)
     else
       road <- ReferenceLine.GetRoadWidth reference_line
                 (SLBoundary.start_s obstacle_sl) ;;
       let road_left := fst road in
       let road_right := snd road in
       if Qle_bool 0 (SLBoundary.start_l obstacle_sl) then
         ret (Std.max (SLBoundary.start_l obstacle_sl - buffered_adc_width)
                      (- road_right),
              SLBoundary.start_l obstacle_sl)
       else
         ret (SLBoundary.end_l obstacle_sl,
              Std.min (SLBoundary.end_l obstacle_sl + buffered_adc_width)
                      road_left)) ;;
  lateral_bounds <-
    defined (assign_pair_first lateral_bounds start_iter end_iter l_lower) ;;
  defined (assign_pair_second lateral_bounds start_iter end_iter l_upper).

(** The body of the loop over the obstacles. *)
Definition shrink (lateral_bounds : Bounds) (path_obstacle : PathObstacle.t)
  : Run Bounds :=
  let obstacle := PathObstacle.obstacle path_obstacle in
  if negb (Obstacle.IsStatic obstacle) then ret lateral_bounds else
  let obstacle_sl := PathObstacle.PerceptionSLBoundary path_obstacle in
  if Qltb (SLBoundary.end_s obstacle_sl) start_s
     || Qltb accumulated_s (SLBoundary.start_s obstacle_sl)
  then ret lateral_bounds else
  start_iter <-
    defined (find_s_iter lateral_bounds (SLBoundary.start_s obstacle_sl)) ;;
  end_iter <-
    defined (option_map S
               (find_s_iter lateral_bounds (SLBoundary.end_s obstacle_sl))) ;;
  widest <- defined (max_pair_second lateral_bounds start_iter end_iter) ;;
  widest_pair <- defined (deref lateral_bounds widest) ;;
  let l_lower := fst widest_pair in
  lowest <- defined (min_pair_first lateral_bounds start_iter end_iter) ;;
  lowest_pair <- defined (deref lateral_bounds lowest) ;;
  let l_upper := snd lowest_pair in
  if Qltb l_upper (SLBoundary.start_l obstacle_sl)
     || Qltb (SLBoundary.end_l obstacle_sl) l_lower
  then ret lateral_bounds else
  handle_obstacle lateral_bounds obstacle_sl start_iter end_iter
    l_lower l_upper.

(** The loop over the obstacles, in their order. *)
Fixpoint shrink_all (lateral_bounds : Bounds)
         (path_obstacles : list PathObstacle.t) : Run Bounds :=
  match path_obstacles with
  | [] => ret lateral_bounds
  | path_obstacle :: rest =>
      lateral_bounds <- shrink lateral_bounds path_obstacle ;;
      shrink_all lateral_bounds rest
  end.

End Shrink.

(** The argument [obstacles] is not read: the loop over the obstacles goes
    through [reference_line_info_]. *)
Definition GetLateralBounds (obstacles : list PathObstacle.t) : Run Bounds :=
  size <- defined bounds_size ;;
  let lateral_bounds := repeat (0, 0) (Z.to_nat size) in
  let start_s := FrenetFramePoint.s frenet_point in
  '(lateral_bounds, accumulated_s) <- expand lateral_bounds start_s ;;
  shrink_all start_s accumulated_s lateral_bounds
    (ReferenceLineInfo.path_obstacles reference_line_info_).

End GetLateralBounds.

(** ** Status, path data and the lateral optimizer *)

Module ErrorCode.
Inductive t : Type := OK | PLANNING_ERROR.
End ErrorCode.

Module Status.
Record t : Type := Build { code : ErrorCode.t; error_message : string }.
(** [Status::OK()] *)
Definition OK : t := Build ErrorCode.OK "".
End Status.

(** The two errors of [Process], by the status each is returned as. *)
Definition NotInitialized : Status.t :=
  Status.Build ErrorCode.PLANNING_ERROR "Not init.".

Definition OptimizationFailed : Status.t :=
  Status.Build ErrorCode.PLANNING_ERROR "lateral qp optimizer failed".

(** Modelled from the spec: [PathData] is declared outside this file; a path
    is the reference line it refers to and its sequence of Frenet points,
    and each setter stores its argument. *)
Module PathData.
Record t : Type :=
  Build { reference_line_ : option ReferenceLine.t;
          frenet_path_ : list FrenetFramePoint.t }.

Definition SetReferenceLine (p : t) (r : ReferenceLine.t) : t :=
  Build (Some r) (frenet_path_ p).

Definition SetFrenetPath (p : t) (path : list FrenetFramePoint.t) : t :=
  Build (reference_line_ p) path.
End PathData.

Module SpeedData.
Record t : Type := Build { speed_vector : list (Q * Q * Q) }.
End SpeedData.

Module ScenarioTaskConfig.
Record t : Type :=
  Build { qp_piecewise_jerk_path_config : option QpPiecewiseJerkPathConfig.t }.
End ScenarioTaskConfig.

(** Modelled from the spec: the lateral optimizer is declared outside this
    file; over the type of its states, [optimize] takes the initial lateral
    state, the step and the corridor, reports success and leaves the
    optimizer in a new state, of which [GetFrenetFramePath] reads the path;
    [fresh] is the state of a newly constructed optimizer. *)
Class LateralQPOptimizer (St : Type) : Type :=
  { fresh : St;
    optimize : St -> Q * Q * Q -> Q -> Bounds -> bool * St;
    GetFrenetFramePath : St -> list FrenetFramePoint.t }.

Module QpPiecewiseJerkPathOptimizer.

(** The members; [lateral_qp_optimizer_] is a pointer, null until [Init]. *)
Record t (St : Type) : Type :=
  Build { is_init_ : bool;
          config_ : QpPiecewiseJerkPathConfig.t;
          reference_line_info_ : ReferenceLineInfo.t;
          lateral_qp_optimizer_ : option St }.

Arguments Build {St} _ _ _ _.
Arguments is_init_ {St} _.
Arguments config_ {St} _.
Arguments reference_line_info_ {St} _.
Arguments lateral_qp_optimizer_ {St} _.

Definition with_optimizer {St : Type} (self : t St) (o : St) : t St :=
  Build (is_init_ self) (config_ self) (reference_line_info_ self) (Some o).

End QpPiecewiseJerkPathOptimizer.

Section Process.

Import QpPiecewiseJerkPathOptimizer.

Context {St : Type} `{LateralQPOptimizer St}.

Definition Init (self : t St) (config : ScenarioTaskConfig.t) : bool * t St :=
  let config' :=
    match ScenarioTaskConfig.qp_piecewise_jerk_path_config config with
    | Some c => c
    | None => config_ self
    end in
  (true, Build true config' (reference_line_info_ self) (Some fresh)).

(** [DCHECK(false)]: nothing when [NDEBUG] is defined, an abort otherwise. *)
Definition DCHECK_false (NDEBUG : bool) : Run unit :=
  if NDEBUG then ret tt else Aborted.

(** [Process] returns its status, and leaves [*path_data] and the
    component as returned with it. *)
Definition Process (NDEBUG : bool) (self : t St)
           (speed_data : SpeedData.t) (reference_line : ReferenceLine.t)
           (init_point : TrajectoryPoint.t) (path_data : PathData.t)
  : Run (Status.t * PathData.t * t St) :=
  if negb (is_init_ self) then
    ret (Status.Build ErrorCode.PLANNING_ERROR "Not init.", path_data, self)
  else
  let frenet_point := ReferenceLine.GetFrenetPoint reference_line init_point in
  let adc_sl := ReferenceLineInfo.AdcSlBoundary (reference_line_info_ self) in
  let qp_delta_s := QpPiecewiseJerkPathConfig.qp_delta_s (config_ self) in
  let path_length :=
    Std.fmax
      (QpPiecewiseJerkPathConfig.min_look_ahead_time (config_ self)
       * TrajectoryPoint.v init_point)
      (QpPiecewiseJerkPathConfig.min_look_ahead_distance (config_ self)) in
  lateral_bounds <-
    GetLateralBounds (config_ self) (reference_line_info_ self) adc_sl
      frenet_point qp_delta_s path_length reference_line
      (ReferenceLineInfo.path_obstacles (reference_line_info_ self)) ;;
  let lateral_state :=
    (FrenetFramePoint.l frenet_point, FrenetFramePoint.dl frenet_point,
     FrenetFramePoint.ddl frenet_point) in
  optimizer <- defined (lateral_qp_optimizer_ self) ;;
  let (success, optimizer) :=
    optimize optimizer lateral_state qp_delta_s lateral_bounds in
  let self := with_optimizer self optimizer in
  if negb success then
    _ <- DCHECK_false NDEBUG ;;
    ret (Status.Build ErrorCode.PLANNING_ERROR "lateral qp optimizer failed",
         path_data, self)
  else
  let frenet_path :=
    map (fun point =>
           FrenetFramePoint.set_s point
             (FrenetFramePoint.s frenet_point + FrenetFramePoint.s point))
        (GetFrenetFramePath optimizer) in
  let path_data := PathData.SetReferenceLine path_data reference_line in
  let path_data := PathData.SetFrenetPath path_data frenet_path in
  ret (Status.OK, path_data, self).

End Process.

(** ** Scenes the statements are tried on *)

Module Scene.

(** The start point at the station [0], on the reference line. *)
Definition origin : FrenetFramePoint.t := FrenetFramePoint.Build 0 0 0 0.

(** A lane of half-widths [3] and a road of half-widths [5] everywhere. *)
Definition straight : ReferenceLine.t :=
  ReferenceLine.Build (fun _ => (3, 3)) (fun _ => (5, 5))
    (fun p => FrenetFramePoint.Build (TrajectoryPoint.x p)
                (TrajectoryPoint.y p) 0 0).

(** A lane that narrows from the station [1] on. *)
Definition narrowing : ReferenceLine.t :=
  ReferenceLine.Build (fun s => if Qltb s 1 then (3, 3) else (2, 1))
    (fun _ => (5, 5))
    (fun p => FrenetFramePoint.Build (TrajectoryPoint.x p)
                (TrajectoryPoint.y p) 0 0).

(** The vehicle: [1.5] wide, centred, its front at the station [1]. *)
Definition adc : SLBoundary.t := SLBoundary.Build (-4) 1 (-0.75) 0.75.

(** [buffered_adc_width] is [1.8] with [narrow_buffer] and [4.5] with
    [wide_buffer]. *)
Definition narrow_buffer : QpPiecewiseJerkPathConfig.t :=
  QpPiecewiseJerkPathConfig.Build 0.3 1 0 5.

Definition wide_buffer : QpPiecewiseJerkPathConfig.t :=
  QpPiecewiseJerkPathConfig.Build 3 1 0 2.

Definition static (start_s end_s start_l end_l : Q) : PathObstacle.t :=
  PathObstacle.Build (Obstacle.Build true)
    (SLBoundary.Build start_s end_s start_l end_l).

Definition moving (start_s end_s start_l end_l : Q) : PathObstacle.t :=
  PathObstacle.Build (Obstacle.Build false)
    (SLBoundary.Build start_s end_s start_l end_l).

Definition info (obstacles : list PathObstacle.t) : ReferenceLineInfo.t :=
  ReferenceLineInfo.Build adc obstacles.

(** Two obstacles beside the vehicle, over the first station: the first
    lowers its upper bound to [1], the second raises its lower bound to
    [2], and the corridor is inverted there. *)
Definition squeezing : list PathObstacle.t :=
  [static 0 0.5 1 2.5; static 0 0.5 0 2].

(** An optimizer that counts its calls, succeeds on the corridors that
    are nowhere inverted, and then holds three points one step apart. *)
Record stub : Type := Stub { calls : nat; held : list FrenetFramePoint.t }.

Definition feasible (bounds : Bounds) : bool :=
  forallb (fun b => Qle_bool (fst b) (snd b)) bounds.

#[global] Instance stub_optimizer : LateralQPOptimizer stub :=
  {| fresh := Stub 0 [];
     optimize := fun st state delta bounds =>
       let ok := feasible bounds in
       (ok,
        Stub (S (calls st))
          (if ok then
             [FrenetFramePoint.Build 0 (fst (fst state)) 0 0;
              FrenetFramePoint.Build delta (fst (fst state)) 0 0;
              FrenetFramePoint.Build (2 * delta) (fst (fst state)) 0 0]
           else []));
     GetFrenetFramePath := held |}.

Definition component (initialised : bool) (config : QpPiecewiseJerkPathConfig.t)
           (obstacles : list PathObstacle.t)
  : QpPiecewiseJerkPathOptimizer.t stub :=
  QpPiecewiseJerkPathOptimizer.Build initialised config (info obstacles)
    (if initialised then Some fresh else None).

Definition pose (x : Q) : TrajectoryPoint.t := TrajectoryPoint.Build x 0 0 2.

Definition no_speed : SpeedData.t := SpeedData.Build [].

Definition empty_path : PathData.t := PathData.Build None [].

End Scene.

(** ** Notions the statements are written with *)

(** The value of [accumulated_s] when the first loop reaches the index [i]:
    [start_s] with [qp_delta_s] added [i] times. *)
Fixpoint station (start_s qp_delta_s : Q) (i : nat) : Q :=
  match i with
  | O => start_s
  | S i' => station (start_s + qp_delta_s) qp_delta_s i'
  end.

(** [max_pair_second(start_iter, end_iter)->first] and
    [min_pair_first(start_iter, end_iter)->second], as the loop body reads
    them into [l_lower] and [l_upper]. *)
Definition l_lower_in (lateral_bounds : Bounds) (start_iter end_iter : nat)
  : option Q :=
  match max_pair_second lateral_bounds start_iter end_iter with
  | Some iter => option_map fst (deref lateral_bounds iter)
  | None => None
  end.

Definition l_upper_in (lateral_bounds : Bounds) (start_iter end_iter : nat)
  : option Q :=
  match min_pair_first lateral_bounds start_iter end_iter with
  | Some iter => option_map snd (deref lateral_bounds iter)
  | None => None
  end.

(** The elements of a vector in the range [first, last). *)
Definition range_of (v : Bounds) (first last : nat) : Bounds :=
  firstn (last - first) (skipn first v).

(** Following the spec's words: the maximum of the lower bounds over the
    range, and the minimum of the upper bounds over the range. *)
Definition spec_l_lower (v : Bounds) (first last : nat) : option Q :=
  match range_of v first last with
  | [] => None
  | p :: rest => Some (fold_left (fun m q => Qmax m (fst q)) rest (fst p))
  end.

Definition spec_l_upper (v : Bounds) (first last : nat) : option Q :=
  match range_of v first last with
  | [] => None
  | p :: rest => Some (fold_left (fun m q => Qmin m (snd q)) rest (snd p))
  end.

(** Following the spec's words: [clamp((s - startPoint.s) / step, 0, N - 1)],
    the quotient truncated to an integer. *)
Definition spec_index (start_s step : Q) (N : nat) (s : Q) : Z :=
  Z.max 0 (Z.min (Z.of_nat N - 1) (trunc ((s - start_s) / step))).

(** The bounds of a vector over the range [first, last) are all [b]. *)
Definition all_in_range (v : Bounds) (first last : nat) (b : Q * Q) : Prop :=
  forall i, (first <= i < last)%nat -> nth_error v i = Some b.

(** Two vectors have the same bounds outside the range [first, last). *)
Definition same_outside (v v' : Bounds) (first last : nat) : Prop :=
  forall i, ~ (first <= i < last)%nat -> nth_error v' i = nth_error v i.

(** The loop body processes the obstacle: it is static, in the longitudinal
    range and in the lateral range, where [start_iter] and [end_iter] are
    the iterators of its stations and [l_lower] and [l_upper] are the two
    values read over them. *)
Record processes (qp_delta_s start_s accumulated_s : Q)
       (lateral_bounds : Bounds) (path_obstacle : PathObstacle.t)
       (start_iter end_iter : nat) (l_lower l_upper : Q) : Prop :=
  { is_static :
      Obstacle.IsStatic (PathObstacle.obstacle path_obstacle) = true;
    not_behind :
      ~ SLBoundary.end_s (PathObstacle.PerceptionSLBoundary path_obstacle)
        < start_s;
    not_beyond :
      ~ accumulated_s
        < SLBoundary.start_s (PathObstacle.PerceptionSLBoundary path_obstacle);
    start_found :
      find_s_iter qp_delta_s start_s lateral_bounds
        (SLBoundary.start_s (PathObstacle.PerceptionSLBoundary path_obstacle))
      = Some start_iter;
    end_found :
      option_map S
        (find_s_iter qp_delta_s start_s lateral_bounds
           (SLBoundary.end_s (PathObstacle.PerceptionSLBoundary path_obstacle)))
      = Some end_iter;
    lower_read : l_lower_in lateral_bounds start_iter end_iter = Some l_lower;
    upper_read : l_upper_in lateral_bounds start_iter end_iter = Some l_upper;
    not_left_of_range :
      ~ l_upper
        < SLBoundary.start_l (PathObstacle.PerceptionSLBoundary path_obstacle);
    not_right_of_range :
      ~ SLBoundary.end_l (PathObstacle.PerceptionSLBoundary path_obstacle)
        < l_lower }.

(** The tests that an obstacle passes to take part in the shrinking: it is
    static, does not end before [start_s] and does not start after
    [horizon_end]. *)
Definition participates (start_s horizon_end : Q) (path_obstacle : PathObstacle.t)
  : bool :=
  Obstacle.IsStatic (PathObstacle.obstacle path_obstacle)
  && negb (Qltb (SLBoundary.end_s
                   (PathObstacle.PerceptionSLBoundary path_obstacle)) start_s)
  && negb (Qltb horizon_end
             (SLBoundary.start_s
                (PathObstacle.PerceptionSLBoundary path_obstacle))).

(** ** Comparisons *)

Lemma Qltb_true (a b : Q) : Qltb a b = true <-> a < b.
Proof.
  unfold Qltb. rewrite Qlt_alt.
  destruct (a ?= b); split; congruence.
Qed.

Lemma Qltb_false (a b : Q) : Qltb a b = false <-> b <= a.
Proof.
  split; intro Hab.
  - apply Qnot_lt_le. intro Hlt. apply Qltb_true in Hlt. congruence.
  - destruct (Qltb a b) eqn:E; [ | reflexivity ].
    apply Qltb_true in E. exfalso. exact (Qle_not_lt _ _ Hab E).
Qed.

Lemma Qltb_compat (a a' b b' : Q) :
  a == a' -> b == b' -> Qltb a b = Qltb a' b'.
Proof.
  intros Ha Hb. unfold Qltb. now rewrite Ha, Hb.
Qed.

Lemma std_max_raises (a b : Q) : a <= b -> Std.max a b == b.
Proof.
  intro Hab. unfold Std.max.
  destruct (Qltb a b) eqn:E; [ reflexivity | ].
  apply Qltb_false in E. now apply Qle_antisym.
Qed.

Lemma std_min_lowers (a b : Q) : b <= a -> Std.min a b == b.
Proof.
  intro Hab. unfold Std.min.
  destruct (Qltb b a) eqn:E; [ reflexivity | ].
  apply Qltb_false in E. now apply Qle_antisym.
Qed.

Lemma std_min_is_Qmin (a b : Q) : Std.min a b == Qmin a b.
Proof.
  unfold Std.min. destruct (Qltb b a) eqn:E.
  - apply Qltb_true in E. symmetry. apply Q.min_r. now apply Qlt_le_weak.
  - apply Qltb_false in E. symmetry. now apply Q.min_l.
Qed.

Lemma std_max_is_Qmax (a b : Q) : Std.max a b == Qmax a b.
Proof.
  unfold Std.max. destruct (Qltb a b) eqn:E.
  - apply Qltb_true in E. symmetry. apply Q.max_r. now apply Qlt_le_weak.
  - apply Qltb_false in E. symmetry. now apply Q.max_l.
Qed.

(** ** The vector *)

Lemma length_set_first (v : Bounds) (i : nat) (x : Q) :
  length (set_first v i x) = length v.
Proof.
  revert i. induction v as [ | p v IH ]; intros [ | i ]; simpl; auto.
Qed.

Lemma length_set_second (v : Bounds) (i : nat) (x : Q) :
  length (set_second v i x) = length v.
Proof.
  revert i. induction v as [ | p v IH ]; intros [ | i ]; simpl; auto.
Qed.

Lemma nth_error_set_first (v : Bounds) (i j : nat) (x : Q) :
  nth_error (set_first v i x) j =
  if (j =? i)%nat then option_map (fun p => (x, snd p)) (nth_error v j)
  else nth_error v j.
Proof.
  revert i j. induction v as [ | p v IH ]; intros i j.
  - destruct i, j; simpl; try reflexivity.
    now destruct (j =? i)%nat.
  - destruct i as [ | i ], j as [ | j ]; simpl; try reflexivity.
    apply IH.
Qed.

Lemma nth_error_set_second (v : Bounds) (i j : nat) (x : Q) :
  nth_error (set_second v i x) j =
  if (j =? i)%nat then option_map (fun p => (fst p, x)) (nth_error v j)
  else nth_error v j.
Proof.
  revert i j. induction v as [ | p v IH ]; intros i j.
  - destruct i, j; simpl; try reflexivity.
    now destruct (j =? i)%nat.
  - destruct i as [ | i ], j as [ | j ]; simpl; try reflexivity.
    apply IH.
Qed.

Lemma length_assign_first_loop (n : nat) (v : Bounds) (iter : nat) (x : Q) :
  length (assign_first_loop v iter n x) = length v.
Proof.
  revert v iter. induction n as [ | n IH ]; intros v iter; simpl.
  - reflexivity.
  - now rewrite IH, length_set_first.
Qed.

Lemma length_assign_second_loop (n : nat) (v : Bounds) (iter : nat) (x : Q) :
  length (assign_second_loop v iter n x) = length v.
Proof.
  revert v iter. induction n as [ | n IH ]; intros v iter; simpl.
  - reflexivity.
  - now rewrite IH, length_set_second.
Qed.

Lemma nth_error_assign_first_loop (n : nat) (v : Bounds) (iter j : nat) (x : Q) :
  nth_error (assign_first_loop v iter n x) j =
  if ((iter <=? j) && (j <? iter + n))%nat
  then option_map (fun p => (x, snd p)) (nth_error v j)
  else nth_error v j.
Proof.
  revert v iter. induction n as [ | n IH ]; intros v iter; simpl.
  - replace ((iter <=? j) && (j <? iter + 0))%nat with false; [ reflexivity | ].
    symmetry. apply andb_false_iff.
    destruct (Nat.leb_spec iter j); [ right | now left ].
    apply Nat.ltb_ge. lia.
  - rewrite IH, nth_error_set_first.
    destruct (Nat.eqb_spec j iter) as [ -> | Hne ].
    + replace ((S iter <=? iter) && (iter <? S iter + n))%nat with false
        by (symmetry; apply andb_false_iff; left; apply Nat.leb_gt; lia).
      replace ((iter <=? iter) && (iter <? iter + S n))%nat with true
        by (symmetry; apply andb_true_iff; split;
            [ apply Nat.leb_le | apply Nat.ltb_lt ]; lia).
      reflexivity.
    + destruct (Nat.leb_spec (S iter) j), (Nat.leb_spec iter j); try lia;
        simpl; [ | reflexivity ].
      replace (j <? iter + S n)%nat with (j <? S iter + n)%nat
        by (f_equal; lia).
      reflexivity.
Qed.

Lemma nth_error_assign_second_loop (n : nat) (v : Bounds) (iter j : nat) (x : Q) :
  nth_error (assign_second_loop v iter n x) j =
  if ((iter <=? j) && (j <? iter + n))%nat
  then option_map (fun p => (fst p, x)) (nth_error v j)
  else nth_error v j.
Proof.
  revert v iter. induction n as [ | n IH ]; intros v iter; simpl.
  - replace ((iter <=? j) && (j <? iter + 0))%nat with false; [ reflexivity | ].
    symmetry. apply andb_false_iff.
    destruct (Nat.leb_spec iter j); [ right | now left ].
    apply Nat.ltb_ge. lia.
  - rewrite IH, nth_error_set_second.
    destruct (Nat.eqb_spec j iter) as [ -> | Hne ].
    + replace ((S iter <=? iter) && (iter <? S iter + n))%nat with false
        by (symmetry; apply andb_false_iff; left; apply Nat.leb_gt; lia).
      replace ((iter <=? iter) && (iter <? iter + S n))%nat with true
        by (symmetry; apply andb_true_iff; split;
            [ apply Nat.leb_le | apply Nat.ltb_lt ]; lia).
      reflexivity.
    + destruct (Nat.leb_spec (S iter) j), (Nat.leb_spec iter j); try lia;
        simpl; [ | reflexivity ].
      replace (j <? iter + S n)%nat with (j <? S iter + n)%nat
        by (f_equal; lia).
      reflexivity.
Qed.

(** ** [std::min_element] and [std::max_element] *)

Section ElementIndex.

Variable v : Bounds.
Variable comp : Q * Q -> Q * Q -> bool.

Lemma min_element_loop_index (n smallest first : nat) :
  let r := min_element_loop v comp smallest first n in
  r = smallest \/ (first <= r < first + n)%nat.
Proof.
  revert smallest first. induction n as [ | n IH ]; intros smallest first; simpl.
  - now left.
  - destruct (IH (if comp (at_ v first) (at_ v smallest)
                  then first else smallest) (S first)) as [ -> | Hr ].
    + destruct (comp _ _); [ right; lia | now left ].
    + right. lia.
Qed.

Lemma max_element_loop_index (n largest first : nat) :
  let r := max_element_loop v comp largest first n in
  r = largest \/ (first <= r < first + n)%nat.
Proof.
  revert largest first. induction n as [ | n IH ]; intros largest first; simpl.
  - now left.
  - destruct (IH (if comp (at_ v largest) (at_ v first)
                  then first else largest) (S first)) as [ -> | Hr ].
    + destruct (comp _ _); [ right; lia | now left ].
    + right. lia.
Qed.

Lemma min_element_index (first last : nat) :
  (first < last <= length v)%nat ->
  exists i, min_element v comp first last = Some i /\ (first <= i < last)%nat.
Proof.
  intros [Hlt Hle]. unfold min_element, valid_range.
  replace (first <=? last)%nat with true by (symmetry; apply Nat.leb_le; lia).
  replace (last <=? length v)%nat with true by (symmetry; now apply Nat.leb_le).
  replace (first =? last)%nat with false by (symmetry; apply Nat.eqb_neq; lia).
  simpl. eexists. split; [ reflexivity | ].
  destruct (min_element_loop_index (last - S first) first (S first)) as [ -> | Hr ];
    lia.
Qed.

Lemma max_element_index (first last : nat) :
  (first < last <= length v)%nat ->
  exists i, max_element v comp first last = Some i /\ (first <= i < last)%nat.
Proof.
  intros [Hlt Hle]. unfold max_element, valid_range.
  replace (first <=? last)%nat with true by (symmetry; apply Nat.leb_le; lia).
  replace (last <=? length v)%nat with true by (symmetry; now apply Nat.leb_le).
  replace (first =? last)%nat with false by (symmetry; apply Nat.eqb_neq; lia).
  simpl. eexists. split; [ reflexivity | ].
  destruct (max_element_loop_index (last - S first) first (S first)) as [ -> | Hr ];
    lia.
Qed.

End ElementIndex.

Lemma l_lower_in_defined (v : Bounds) (first last : nat) :
  (first < last <= length v)%nat ->
  exists i p, max_pair_second v first last = Some i /\ (first <= i < last)%nat
              /\ deref v i = Some p /\ l_lower_in v first last = Some (fst p).
Proof.
  intro Hr. unfold l_lower_in, max_pair_second.
  destruct (max_element_index v (fun lhs rhs => Qltb (snd lhs) (snd rhs))
              first last Hr) as (i & Hi & Hin).
  destruct (nth_error v i) as [ p | ] eqn:Hp.
  - exists i, p. rewrite Hi. unfold deref. rewrite Hp. auto.
  - apply nth_error_None in Hp. lia.
Qed.

Lemma l_upper_in_defined (v : Bounds) (first last : nat) :
  (first < last <= length v)%nat ->
  exists i p, min_pair_first v first last = Some i /\ (first <= i < last)%nat
              /\ deref v i = Some p /\ l_upper_in v first last = Some (snd p).
Proof.
  intro Hr. unfold l_upper_in, min_pair_first.
  destruct (min_element_index v (fun lhs rhs => Qltb (fst lhs) (fst rhs))
              first last Hr) as (i & Hi & Hin).
  destruct (nth_error v i) as [ p | ] eqn:Hp.
  - exists i, p. rewrite Hi. unfold deref. rewrite Hp. auto.
  - apply nth_error_None in Hp. lia.
Qed.

(** Over a range whose bounds are all the same, [l_lower] and [l_upper]
    are the two sides of that bound. *)
Lemma l_lower_in_uniform (v : Bounds) (first last : nat) (b : Q * Q) :
  (first < last <= length v)%nat -> all_in_range v first last b ->
  l_lower_in v first last = Some (fst b).
Proof.
  intros Hr Hall.
  destruct (l_lower_in_defined v first last Hr) as (i & p & _ & Hi & Hp & ->).
  unfold deref in Hp. rewrite (Hall i Hi) in Hp. congruence.
Qed.

Lemma l_upper_in_uniform (v : Bounds) (first last : nat) (b : Q * Q) :
  (first < last <= length v)%nat -> all_in_range v first last b ->
  l_upper_in v first last = Some (snd b).
Proof.
  intros Hr Hall.
  destruct (l_upper_in_defined v first last Hr) as (i & p & _ & Hi & Hp & ->).
  unfold deref in Hp. rewrite (Hall i Hi) in Hp. congruence.
Qed.

(** ** Truncation and [find_s_iter] *)

Lemma trunc_nonneg (q : Q) : 0 <= q -> trunc q = Qfloor q.
Proof.
  destruct q as [n d]. unfold Qle, trunc, Qfloor. simpl. intro Hn.
  apply Z.quot_div_nonneg; lia.
Qed.

Lemma trunc_neg (q : Q) : q <= 0 -> trunc q = (- Qfloor (- q))%Z.
Proof.
  destruct q as [n d]. unfold Qle, trunc, Qfloor, Qopp. simpl. intro Hn.
  rewrite <- (Z.opp_involutive n) at 1.
  rewrite Z.quot_opp_l by lia.
  f_equal. apply Z.quot_div_nonneg; lia.
Qed.

Lemma trunc_le (p q : Q) : p <= q -> (trunc p <= trunc q)%Z.
Proof.
  intro Hpq.
  destruct (Qlt_le_dec p 0) as [Hp | Hp], (Qlt_le_dec q 0) as [Hq | Hq].
  - rewrite (trunc_neg p), (trunc_neg q) by now apply Qlt_le_weak.
    apply Z.opp_le_mono. rewrite !Z.opp_involutive.
    apply Qfloor_resp_le. now apply Qopp_le_compat.
  - rewrite (trunc_neg p) by now apply Qlt_le_weak.
    rewrite (trunc_nonneg q) by assumption.
    assert (0 <= Qfloor (- p))%Z.
    { change 0%Z with (Qfloor 0). apply Qfloor_resp_le.
      apply Qlt_le_weak in Hp. apply Qopp_le_compat in Hp. exact Hp. }
    assert (0 <= Qfloor q)%Z.
    { change 0%Z with (Qfloor 0). now apply Qfloor_resp_le. }
    lia.
  - exfalso. apply (Qlt_irrefl 0).
    apply Qle_lt_trans with q; [ | assumption ].
    now apply Qle_trans with p.
  - rewrite (trunc_nonneg p), (trunc_nonneg q) by assumption.
    now apply Qfloor_resp_le.
Qed.

Section FindSIter.

Variable qp_delta_s : Q.
Variable start_s : Q.
Variable lateral_bounds : Bounds.

(** What [find_s_iter] returns is the truncated quotient, clamped from
    above to the last index. *)
Lemma find_s_iter_some (s : Q) (i : nat) :
  find_s_iter qp_delta_s start_s lateral_bounds s = Some i ->
  ~ qp_delta_s == 0
  /\ (0 <= trunc ((s - start_s) / qp_delta_s))%Z
  /\ (i < length lateral_bounds)%nat
  /\ Z.of_nat i = Z.min (Z.of_nat (length lateral_bounds) - 1)
                        (trunc ((s - start_s) / qp_delta_s)).
Proof.
  unfold find_s_iter, fdiv, static_cast_size_t, Std.minz.
  destruct (Qeq_bool qp_delta_s 0) eqn:Hd; [ discriminate | ].
  apply Qeq_bool_neq in Hd.
  set (t := trunc ((s - start_s) / qp_delta_s)).
  destruct ((0 <=? t)%Z && (t <=? SIZE_MAX)%Z) eqn:Ht; [ | discriminate ].
  apply andb_true_iff in Ht. destruct Ht as [Ht0 _]. apply Z.leb_le in Ht0.
  set (size := length lateral_bounds).
  destruct (Z.ltb_spec t (Z.of_nat size)) as [Hlt | Hge].
  - destruct (Nat.eqb_spec (Z.to_nat t) size) as [He | Hne]; [ lia | ].
    intro Hi. injection Hi as <-. repeat split; try assumption; lia.
  - rewrite Nat2Z.id, Nat.eqb_refl.
    destruct size as [ | size' ] eqn:Hs; [ discriminate | ].
    intro Hi. injection Hi as <-. repeat split; try assumption; lia.
Qed.

(** The index of a station behind another one is not after its index. *)
Lemma find_s_iter_le (s1 s2 : Q) (i1 i2 : nat) :
  0 < qp_delta_s -> s1 <= s2 ->
  find_s_iter qp_delta_s start_s lateral_bounds s1 = Some i1 ->
  find_s_iter qp_delta_s start_s lateral_bounds s2 = Some i2 ->
  (i1 <= i2)%nat.
Proof.
  intros Hd Hs H1 H2.
  apply find_s_iter_some in H1. destruct H1 as (_ & _ & _ & E1).
  apply find_s_iter_some in H2. destruct H2 as (_ & _ & _ & E2).
  assert (Hq : (s1 - start_s) / qp_delta_s <= (s2 - start_s) / qp_delta_s).
  { unfold Qdiv. apply Qmult_le_compat_r.
    - unfold Qminus. apply Qplus_le_compat; [ assumption | apply Qle_refl ].
    - apply Qlt_le_weak. now apply Qinv_lt_0_compat. }
  apply trunc_le in Hq. lia.
Qed.

End FindSIter.

(** ** Outcomes *)

Lemma bind_ret_l {A B : Type} (a : A) (k : A -> Run B) : bind (ret a) k = k a.
Proof.
  unfold bind, ret. now destruct (k a).
Qed.

Lemma bind_returns {A B : Type} (m : Run A) (k : A -> Run B) (b : B)
      (q : list Query) :
  bind m k = Returns b q ->
  exists a q1 q2, m = Returns a q1 /\ k a = Returns b q2 /\ q = q1 ++ q2.
Proof.
  unfold bind. destruct m as [ a q1 | | ]; try discriminate.
  destruct (k a) as [ b' q2 | | ] eqn:Hk; try discriminate.
  intro E. injection E as <- <-. now exists a, q1, q2.
Qed.

(** ** The first loop *)

Lemma station_S (s d : Q) (i : nat) : station s d (S i) = station s d i + d.
Proof.
  revert s. induction i as [ | i IH ]; intro s; simpl.
  - reflexivity.
  - apply (IH (s + d)).
Qed.

(** [accumulated_s] at the index [i] is [start_s + i * qp_delta_s]. *)
Lemma station_eq (s d : Q) (i : nat) :
  station s d i == s + inject_Z (Z.of_nat i) * d.
Proof.
  induction i as [ | i IH ].
  - simpl. ring.
  - rewrite station_S, IH, Nat2Z.inj_succ. unfold Z.succ.
    rewrite inject_Z_plus. ring.
Qed.

Section Expand.

Variable adc_sl : SLBoundary.t.
Variable qp_delta_s : Q.
Variable reference_line : ReferenceLine.t.

(** One station makes the lane query, and at most the road query after it. *)
Lemma expand_at_returns (s : Q) :
  exists b q, expand_at adc_sl reference_line s = Returns b q
              /\ (q = [LaneWidthQuery s]
                  \/ q = [LaneWidthQuery s; RoadWidthQuery s]).
Proof.
  unfold expand_at, ReferenceLine.GetLaneWidth, ReferenceLine.GetRoadWidth.
  cbn [bind].
  destruct (Qltb (fst (ReferenceLine.lane_width reference_line s))
              (SLBoundary.end_l adc_sl));
    destruct (Qltb (SLBoundary.start_l adc_sl)
                (- snd (ReferenceLine.lane_width reference_line s)));
    cbn; eauto.
Qed.

(** The first loop returns; it fills every element by [expand_at] at its
    station, leaves [accumulated_s] one step past the last station, and
    makes the queries of its stations only. *)
Lemma expand_returns (lateral_bounds : Bounds) (s : Q) :
  exists bs q,
    expand adc_sl qp_delta_s reference_line lateral_bounds s
    = Returns (bs, station s qp_delta_s (length lateral_bounds)) q
    /\ length bs = length lateral_bounds
    /\ (forall i, (i < length lateral_bounds)%nat ->
          value (expand_at adc_sl reference_line (station s qp_delta_s i))
          = nth_error bs i)
    /\ (forall x, In x q ->
          exists i b q',
            (i < length lateral_bounds)%nat
            /\ expand_at adc_sl reference_line (station s qp_delta_s i)
               = Returns b q'
            /\ In x q').
Proof.
  revert s. induction lateral_bounds as [ | p rest IH ]; intro s.
  - exists [], []. simpl. repeat split; try reflexivity.
    + intros i Hi. lia.
    + intros x [].
  - destruct (expand_at_returns s) as (b & q0 & Hb & Hq0).
    destruct (IH (s + qp_delta_s)) as (bs & q & Hbs & Hlen & Hnth & Hin).
    exists (b :: bs), (q0 ++ q ++ []).
    cbn [expand length station]. rewrite Hb. cbn [bind]. rewrite Hbs.
    cbn [bind ret]. repeat split.
    + now rewrite Hlen.
    + intros [ | i ] Hi; cbn [station nth_error].
      * now rewrite Hb.
      * apply Hnth. lia.
    + intros x Hx. rewrite app_nil_r in Hx. apply in_app_or in Hx.
      destruct Hx as [Hx | Hx].
      * exists O, b, q0. repeat split; [ lia | exact Hb | exact Hx ].
      * destruct (Hin x Hx) as (i & b' & q' & Hi & Hb' & Hx').
        exists (S i), b', q'. repeat split; [ lia | exact Hb' | exact Hx' ].
Qed.

End Expand.

(** ** The loop over the obstacles *)

Lemma valid_range_length (v v' : Bounds) (first last : nat) :
  length v' = length v -> valid_range v' first last = valid_range v first last.
Proof.
  intro Hlen. unfold valid_range. now rewrite Hlen.
Qed.

Lemma valid_range_bounds (v : Bounds) (first last : nat) :
  valid_range v first last = true <-> (first <= last <= length v)%nat.
Proof.
  unfold valid_range. rewrite andb_true_iff, !Nat.leb_le. tauto.
Qed.

Lemma l_lower_in_valid (v : Bounds) (first last : nat) (x : Q) :
  l_lower_in v first last = Some x -> valid_range v first last = true.
Proof.
  unfold l_lower_in, max_pair_second, max_element.
  destruct (valid_range v first last); [ reflexivity | discriminate ].
Qed.

(** The two assignments at the end of the loop body write [(lower, upper)]
    over the whole range and nothing else. *)
Lemma assign_both (v : Bounds) (first last : nat) (lower upper : Q) :
  valid_range v first last = true ->
  exists v',
    (v1 <- defined (assign_pair_first v first last lower) ;;
     defined (assign_pair_second v1 first last upper)) = Returns v' []
    /\ length v' = length v
    /\ all_in_range v' first last (lower, upper)
    /\ same_outside v v' first last.
Proof.
  intro Hv. unfold assign_pair_first. rewrite Hv. cbn [defined]. rewrite bind_ret_l.
  unfold assign_pair_second.
  rewrite (valid_range_length v), Hv by apply length_assign_first_loop.
  apply valid_range_bounds in Hv.
  eexists. split; [ reflexivity | ]. split; [ | split ].
  - now rewrite length_assign_second_loop, length_assign_first_loop.
  - intros i Hi.
    rewrite nth_error_assign_second_loop, nth_error_assign_first_loop.
    replace ((first <=? i) && (i <? first + (last - first)))%nat with true
      by (symmetry; apply andb_true_iff; split;
          [ apply Nat.leb_le | apply Nat.ltb_lt ]; lia).
    destruct (nth_error v i) as [ p | ] eqn:Hp; [ reflexivity | ].
    apply nth_error_None in Hp. lia.
  - intros i Hi.
    rewrite nth_error_assign_second_loop, nth_error_assign_first_loop.
    replace ((first <=? i) && (i <? first + (last - first)))%nat with false;
      [ reflexivity | ].
    symmetry. apply andb_false_iff.
    destruct (Nat.leb_spec first i); [ right | now left ].
    apply Nat.ltb_ge. lia.
Qed.

Section Shrink.

Variable config_ : QpPiecewiseJerkPathConfig.t.
Variable adc_sl : SLBoundary.t.
Variable qp_delta_s : Q.
Variable reference_line : ReferenceLine.t.
Variable start_s accumulated_s : Q.

Local Abbreviation body :=
  (shrink config_ adc_sl qp_delta_s reference_line start_s accumulated_s).

Lemma shrink_not_static (v : Bounds) (o : PathObstacle.t) :
  Obstacle.IsStatic (PathObstacle.obstacle o) = false ->
  body v o = Returns v [].
Proof.
  intro Hs. unfold shrink. now rewrite Hs.
Qed.

Lemma shrink_behind (v : Bounds) (o : PathObstacle.t) :
  SLBoundary.end_s (PathObstacle.PerceptionSLBoundary o) < start_s ->
  body v o = Returns v [].
Proof.
  intro Hs. unfold shrink. apply Qltb_true in Hs. rewrite Hs.
  now destruct (negb _).
Qed.

Lemma shrink_beyond (v : Bounds) (o : PathObstacle.t) :
  accumulated_s < SLBoundary.start_s (PathObstacle.PerceptionSLBoundary o) ->
  body v o = Returns v [].
Proof.
  intro Hs. unfold shrink. apply Qltb_true in Hs. rewrite Hs.
  rewrite orb_true_r. now destruct (negb _).
Qed.

(** On an obstacle that it processes, the loop body is what it does past
    its tests. *)
Lemma shrink_processes (v : Bounds) (o : PathObstacle.t)
      (start_iter end_iter : nat) (l_lower l_upper : Q) :
  processes qp_delta_s start_s accumulated_s v o start_iter end_iter
    l_lower l_upper ->
  body v o
  = handle_obstacle config_ adc_sl reference_line v
      (PathObstacle.PerceptionSLBoundary o) start_iter end_iter
      l_lower l_upper.
Proof.
  intros [Hst Hnb Hny Hsi Hei Hlo Hup Hl Hr]. unfold shrink.
  rewrite Hst. cbn [negb].
  replace (Qltb (SLBoundary.end_s (PathObstacle.PerceptionSLBoundary o)) start_s)
    with false by (symmetry; apply Qltb_false; now apply Qnot_lt_le).
  replace (Qltb accumulated_s
             (SLBoundary.start_s (PathObstacle.PerceptionSLBoundary o)))
    with false by (symmetry; apply Qltb_false; now apply Qnot_lt_le).
  cbn [orb]. rewrite Hsi, Hei. cbn [defined]. rewrite !bind_ret_l.
  unfold l_lower_in in Hlo. unfold l_upper_in in Hup.
  destruct (max_pair_second v start_iter end_iter) as [ i | ];
    [ | discriminate ].
  cbn [defined]. rewrite bind_ret_l.
  destruct (deref v i) as [ p | ]; [ | discriminate ].
  cbn [defined]. rewrite bind_ret_l.
  destruct (min_pair_first v start_iter end_iter) as [ j | ];
    [ | discriminate ].
  cbn [defined]. rewrite bind_ret_l.
  destruct (deref v j) as [ p' | ]; [ | discriminate ].
  cbn [defined]. rewrite bind_ret_l.
  cbn [option_map] in Hlo, Hup.
  injection Hlo as Hlo. injection Hup as Hup. rewrite Hlo, Hup.
  replace (Qltb l_upper
             (SLBoundary.start_l (PathObstacle.PerceptionSLBoundary o)))
    with false by (symmetry; apply Qltb_false; now apply Qnot_lt_le).
  replace (Qltb (SLBoundary.end_l (PathObstacle.PerceptionSLBoundary o))
             l_lower)
    with false by (symmetry; apply Qltb_false; now apply Qnot_lt_le).
  reflexivity.
Qed.

End Shrink.

(** * Properties of [Process] *)

(** [Init] leaves the component initialised, with a new optimizer. *)
Lemma Init_initialises {St : Type} `{LateralQPOptimizer St}
      (self : QpPiecewiseJerkPathOptimizer.t St) (config : ScenarioTaskConfig.t) :
  fst (Init self config) = true
  /\ QpPiecewiseJerkPathOptimizer.is_init_ (snd (Init self config)) = true
  /\ QpPiecewiseJerkPathOptimizer.lateral_qp_optimizer_ (snd (Init self config))
     = Some fresh.
Proof.
  repeat split.
Qed.

(** What [Process] does once the corridor is there and the optimizer has
    been called on it, once. *)
Lemma Process_after_optimize
      {St : Type} `{LateralQPOptimizer St} (NDEBUG : bool)
      (self : QpPiecewiseJerkPathOptimizer.t St) (speed_data : SpeedData.t)
      (reference_line : ReferenceLine.t) (init_point : TrajectoryPoint.t)
      (path_data : PathData.t) (lateral_bounds : Bounds) (q : list Query)
      (optimizer optimizer' : St) (success : bool) :
  let config := QpPiecewiseJerkPathOptimizer.config_ self in
  let info := QpPiecewiseJerkPathOptimizer.reference_line_info_ self in
  let frenet_point := ReferenceLine.GetFrenetPoint reference_line init_point in
  let qp_delta_s := QpPiecewiseJerkPathConfig.qp_delta_s config in
  QpPiecewiseJerkPathOptimizer.is_init_ self = true ->
  GetLateralBounds config info (ReferenceLineInfo.AdcSlBoundary info)
    frenet_point qp_delta_s
    (Std.fmax
       (QpPiecewiseJerkPathConfig.min_look_ahead_time config
        * TrajectoryPoint.v init_point)
       (QpPiecewiseJerkPathConfig.min_look_ahead_distance config))
    reference_line (ReferenceLineInfo.path_obstacles info)
  = Returns lateral_bounds q ->
  QpPiecewiseJerkPathOptimizer.lateral_qp_optimizer_ self = Some optimizer ->
  optimize optimizer
    (FrenetFramePoint.l frenet_point, FrenetFramePoint.dl frenet_point,
     FrenetFramePoint.ddl frenet_point) qp_delta_s lateral_bounds
  = (success, optimizer') ->
  Process NDEBUG self speed_data reference_line init_point path_data
  = if success then
      Returns
        (Status.OK,
         PathData.Build (Some reference_line)
           (map (fun point =>
                   FrenetFramePoint.set_s point
                     (FrenetFramePoint.s frenet_point
                      + FrenetFramePoint.s point))
                (GetFrenetFramePath optimizer')),
         QpPiecewiseJerkPathOptimizer.with_optimizer self optimizer') q
    else if NDEBUG then
      Returns (OptimizationFailed, path_data,
               QpPiecewiseJerkPathOptimizer.with_optimizer self optimizer') q
    else Aborted.
Proof.
  cbv zeta. intros Hinit Hc Ho Hopt.
  unfold Process. rewrite Hinit. cbn [negb].
  rewrite Hc. cbn [bind]. rewrite Ho. cbn [defined]. rewrite bind_ret_l, Hopt.
  destruct success; cbn [negb].
  - unfold PathData.SetFrenetPath, PathData.SetReferenceLine. cbn.
    now rewrite !app_nil_r.
  - unfold DCHECK_false, OptimizationFailed.
    destruct NDEBUG; cbn; [ now rewrite !app_nil_r | reflexivity ].
Qed.

(** Adding the start station to the stations [0, delta, 2 delta, ...]. *)
Lemma stations_re_anchored (start start' delta : Q) (n first : nat) :
  start == start' ->
  Forall2 Qeq
    (map (fun s => start + s)
       (map (fun k => inject_Z (Z.of_nat k) * delta) (seq first n)))
    (map (fun k => start' + inject_Z (Z.of_nat k) * delta) (seq first n)).
Proof.
  intro Hs. revert first. induction n as [ | n IH ]; intro first; simpl.
  - constructor.
  - constructor; [ now rewrite Hs | apply IH ].
Qed.

Lemma re_anchored_pointwise (start : Q) (path : list FrenetFramePoint.t) :
  Forall2
    (fun point' point =>
       FrenetFramePoint.s point' = start + FrenetFramePoint.s point
       /\ FrenetFramePoint.l point' = FrenetFramePoint.l point
       /\ FrenetFramePoint.dl point' = FrenetFramePoint.dl point
       /\ FrenetFramePoint.ddl point' = FrenetFramePoint.ddl point)
    (map (fun point =>
            FrenetFramePoint.set_s point (start + FrenetFramePoint.s point))
         path)
    path.
Proof.
  induction path as [ | point path IH ]; simpl; constructor; auto.
Qed.

(** C7. Whenever the optimizer succeeds on the corridor, [Process] returns
    [Status::OK()] and leaves in the path data the reference line and the
    points of the optimizer, in their order, each with the station of the
    start point added to its station and its other fields as they were;
    the optimizer has been called once.  With the start station [50] and
    the optimizer's stations [0, delta, 2 delta, ...], the stations of the
    path are [50, 50 + delta, 50 + 2 delta, ...]. *)
Theorem Process_success_re_anchors
        {St : Type} `{LateralQPOptimizer St} (NDEBUG : bool)
        (self : QpPiecewiseJerkPathOptimizer.t St) (speed_data : SpeedData.t)
        (reference_line : ReferenceLine.t) (init_point : TrajectoryPoint.t)
        (path_data : PathData.t) (lateral_bounds : Bounds) (q : list Query)
        (optimizer optimizer' : St) :
  let config := QpPiecewiseJerkPathOptimizer.config_ self in
  let info := QpPiecewiseJerkPathOptimizer.reference_line_info_ self in
  let frenet_point := ReferenceLine.GetFrenetPoint reference_line init_point in
  let qp_delta_s := QpPiecewiseJerkPathConfig.qp_delta_s config in
  QpPiecewiseJerkPathOptimizer.is_init_ self = true ->
  GetLateralBounds config info (ReferenceLineInfo.AdcSlBoundary info)
    frenet_point qp_delta_s
    (Std.fmax
       (QpPiecewiseJerkPathConfig.min_look_ahead_time config
        * TrajectoryPoint.v init_point)
       (QpPiecewiseJerkPathConfig.min_look_ahead_distance config))
    reference_line (ReferenceLineInfo.path_obstacles info)
  = Returns lateral_bounds q ->
  QpPiecewiseJerkPathOptimizer.lateral_qp_optimizer_ self = Some optimizer ->
  optimize optimizer
    (FrenetFramePoint.l frenet_point, FrenetFramePoint.dl frenet_point,
     FrenetFramePoint.ddl frenet_point) qp_delta_s lateral_bounds
  = (true, optimizer') ->
  exists frenet_path,
    Process NDEBUG self speed_data reference_line init_point path_data
    = Returns
        (Status.OK, PathData.Build (Some reference_line) frenet_path,
         QpPiecewiseJerkPathOptimizer.with_optimizer self optimizer') q
    /\ Forall2
         (fun point' point =>
            FrenetFramePoint.s point'
            = FrenetFramePoint.s frenet_point + FrenetFramePoint.s point
            /\ FrenetFramePoint.l point' = FrenetFramePoint.l point
            /\ FrenetFramePoint.dl point' = FrenetFramePoint.dl point
            /\ FrenetFramePoint.ddl point' = FrenetFramePoint.ddl point)
         frenet_path (GetFrenetFramePath optimizer')
    /\ (forall (delta : Q) (n : nat),
          FrenetFramePoint.s frenet_point == 50 ->
          map FrenetFramePoint.s (GetFrenetFramePath optimizer')
          = map (fun k => inject_Z (Z.of_nat k) * delta) (seq 0 n) ->
          Forall2 Qeq (map FrenetFramePoint.s frenet_path)
            (map (fun k => 50 + inject_Z (Z.of_nat k) * delta) (seq 0 n))).
Proof.
  intros config info frenet_point qp_delta_s Hinit Hc Ho Hopt.
  eexists. split; [ | split ].
  - exact (Process_after_optimize NDEBUG self speed_data reference_line
             init_point path_data lateral_bounds q optimizer optimizer' true
             Hinit Hc Ho Hopt).
  - apply re_anchored_pointwise.
  - intros delta n Hs Hpath. rewrite map_map. cbn [FrenetFramePoint.set_s
      FrenetFramePoint.s].
    rewrite <- (map_map FrenetFramePoint.s
                  (fun s => FrenetFramePoint.s frenet_point + s)).
    rewrite Hpath. now apply stations_re_anchored.
Qed.

Lemma Process_success_re_anchors_witness :
  let self := Scene.component true Scene.narrow_buffer [] in
  let lateral_bounds := repeat (-3, 3) 5%nat in
  let q := map LaneWidthQuery [50; 51; 52; 53; 54] in
  let optimizer' := snd (optimize fresh (0, 0, 0) 1 lateral_bounds) in
  exists frenet_path,
    Process true self Scene.no_speed Scene.straight (Scene.pose 50)
      Scene.empty_path
    = Returns
        (Status.OK, PathData.Build (Some Scene.straight) frenet_path,
         QpPiecewiseJerkPathOptimizer.with_optimizer self optimizer') q
    /\ Forall2
         (fun point' point =>
            FrenetFramePoint.s point' = 50 + FrenetFramePoint.s point
            /\ FrenetFramePoint.l point' = FrenetFramePoint.l point
            /\ FrenetFramePoint.dl point' = FrenetFramePoint.dl point
            /\ FrenetFramePoint.ddl point' = FrenetFramePoint.ddl point)
         frenet_path (GetFrenetFramePath optimizer')
    /\ (forall (delta : Q) (n : nat),
          50 == 50 ->
          map FrenetFramePoint.s (GetFrenetFramePath optimizer')
          = map (fun k => inject_Z (Z.of_nat k) * delta) (seq 0 n) ->
          Forall2 Qeq (map FrenetFramePoint.s frenet_path)
            (map (fun k => 50 + inject_Z (Z.of_nat k) * delta) (seq 0 n))).
Proof.
  intros self lateral_bounds q optimizer'.
  apply (Process_success_re_anchors true self Scene.no_speed Scene.straight
           (Scene.pose 50) Scene.empty_path lateral_bounds q fresh optimizer');
    reflexivity.
Defined.

(** C8. Before the component is initialised, [Process] returns the status
    "Not init." whatever its arguments are, and leaves the path data and
    the component as they were; it asks nothing of the reference line. *)
Theorem Process_not_initialised
        {St : Type} `{LateralQPOptimizer St} (NDEBUG : bool)
        (self : QpPiecewiseJerkPathOptimizer.t St) (speed_data : SpeedData.t)
        (reference_line : ReferenceLine.t) (init_point : TrajectoryPoint.t)
        (path_data : PathData.t) :
  QpPiecewiseJerkPathOptimizer.is_init_ self = false ->
  Process NDEBUG self speed_data reference_line init_point path_data
  = Returns (NotInitialized, path_data, self) [].
Proof.
  intro Hinit. unfold Process. now rewrite Hinit.
Qed.

Lemma Process_not_initialised_witness :
  Process false (Scene.component false Scene.narrow_buffer [])
    Scene.no_speed Scene.straight (Scene.pose 50) Scene.empty_path
  = Returns
      (NotInitialized, Scene.empty_path,
       Scene.component false Scene.narrow_buffer []) [].
Proof.
  apply (Process_not_initialised false
           (Scene.component false Scene.narrow_buffer [])).
  reflexivity.
Defined.

(** C9. Whenever the optimizer reports a failure, whatever the corridor is,
    [Process] (built with [NDEBUG], where [DCHECK] is nothing) returns the
    status "lateral qp optimizer failed" and leaves the path data as it
    was; the optimizer is left as its one call left it: there is no second
    call. *)
Theorem Process_optimizer_failure
        {St : Type} `{LateralQPOptimizer St}
        (self : QpPiecewiseJerkPathOptimizer.t St) (speed_data : SpeedData.t)
        (reference_line : ReferenceLine.t) (init_point : TrajectoryPoint.t)
        (path_data : PathData.t) (lateral_bounds : Bounds) (q : list Query)
        (optimizer optimizer' : St) :
  let config := QpPiecewiseJerkPathOptimizer.config_ self in
  let info := QpPiecewiseJerkPathOptimizer.reference_line_info_ self in
  let frenet_point := ReferenceLine.GetFrenetPoint reference_line init_point in
  let qp_delta_s := QpPiecewiseJerkPathConfig.qp_delta_s config in
  QpPiecewiseJerkPathOptimizer.is_init_ self = true ->
  GetLateralBounds config info (ReferenceLineInfo.AdcSlBoundary info)
    frenet_point qp_delta_s
    (Std.fmax
       (QpPiecewiseJerkPathConfig.min_look_ahead_time config
        * TrajectoryPoint.v init_point)
       (QpPiecewiseJerkPathConfig.min_look_ahead_distance config))
    reference_line (ReferenceLineInfo.path_obstacles info)
  = Returns lateral_bounds q ->
  QpPiecewiseJerkPathOptimizer.lateral_qp_optimizer_ self = Some optimizer ->
  optimize optimizer
    (FrenetFramePoint.l frenet_point, FrenetFramePoint.dl frenet_point,
     FrenetFramePoint.ddl frenet_point) qp_delta_s lateral_bounds
  = (false, optimizer') ->
  Process true self speed_data reference_line init_point path_data
  = Returns
      (OptimizationFailed, path_data,
       QpPiecewiseJerkPathOptimizer.with_optimizer self optimizer') q.
Proof.
  intros config info frenet_point qp_delta_s Hinit Hc Ho Hopt.
  exact (Process_after_optimize true self speed_data reference_line
           init_point path_data lateral_bounds q optimizer optimizer' false
           Hinit Hc Ho Hopt).
Qed.

Lemma Process_optimizer_failure_witness :
  let self := Scene.component true Scene.narrow_buffer Scene.squeezing in
  Process true self Scene.no_speed Scene.straight (Scene.pose 0)
    Scene.empty_path
  = Returns
      (OptimizationFailed, Scene.empty_path,
       QpPiecewiseJerkPathOptimizer.with_optimizer self (Scene.Stub 1 []))
      (map LaneWidthQuery [0; 1; 2; 3; 4]).
Proof.
  intro self.
  apply (Process_optimizer_failure self Scene.no_speed Scene.straight
           (Scene.pose 0) Scene.empty_path ((2, 1) :: repeat (-3, 3) 4%nat)
           (map LaneWidthQuery [0; 1; 2; 3; 4])
           fresh (Scene.Stub 1 []));
    reflexivity.
Defined.

(** Built without [NDEBUG], [Process] is aborted by [DCHECK(false)] when
    the optimizer reports a failure. *)
Lemma Process_optimizer_failure_debug
      {St : Type} `{LateralQPOptimizer St}
      (self : QpPiecewiseJerkPathOptimizer.t St) (speed_data : SpeedData.t)
      (reference_line : ReferenceLine.t) (init_point : TrajectoryPoint.t)
      (path_data : PathData.t) (lateral_bounds : Bounds) (q : list Query)
      (optimizer optimizer' : St) :
  let config := QpPiecewiseJerkPathOptimizer.config_ self in
  let info := QpPiecewiseJerkPathOptimizer.reference_line_info_ self in
  let frenet_point := ReferenceLine.GetFrenetPoint reference_line init_point in
  let qp_delta_s := QpPiecewiseJerkPathConfig.qp_delta_s config in
  QpPiecewiseJerkPathOptimizer.is_init_ self = true ->
  GetLateralBounds config info (ReferenceLineInfo.AdcSlBoundary info)
    frenet_point qp_delta_s
    (Std.fmax
       (QpPiecewiseJerkPathConfig.min_look_ahead_time config
        * TrajectoryPoint.v init_point)
       (QpPiecewiseJerkPathConfig.min_look_ahead_distance config))
    reference_line (ReferenceLineInfo.path_obstacles info)
  = Returns lateral_bounds q ->
  QpPiecewiseJerkPathOptimizer.lateral_qp_optimizer_ self = Some optimizer ->
  optimize optimizer
    (FrenetFramePoint.l frenet_point, FrenetFramePoint.dl frenet_point,
     FrenetFramePoint.ddl frenet_point) qp_delta_s lateral_bounds
  = (false, optimizer') ->
  Process false self speed_data reference_line init_point path_data = Aborted.
Proof.
  intros config info frenet_point qp_delta_s Hinit Hc Ho Hopt.
  exact (Process_after_optimize false self speed_data reference_line
           init_point path_data lateral_bounds q optimizer optimizer' false
           Hinit Hc Ho Hopt).
Qed.

(** * Properties of [GetLateralBounds] *)

(** ** The base corridor *)

Lemma expand_at_off_left (adc_sl : SLBoundary.t) (reference_line : ReferenceLine.t)
      (s : Q) :
  fst (ReferenceLine.lane_width reference_line s) < SLBoundary.end_l adc_sl ->
  expand_at adc_sl reference_line s
  = Returns
      (- snd (ReferenceLine.lane_width reference_line s),
       Std.min (SLBoundary.end_l adc_sl)
         (fst (ReferenceLine.road_width reference_line s)))
      [LaneWidthQuery s; RoadWidthQuery s].
Proof.
  intro Hoff. apply Qltb_true in Hoff.
  unfold expand_at, ReferenceLine.GetLaneWidth, ReferenceLine.GetRoadWidth.
  cbn [bind]. rewrite Hoff. reflexivity.
Qed.

Lemma expand_at_inside (adc_sl : SLBoundary.t) (reference_line : ReferenceLine.t)
      (s : Q) :
  SLBoundary.end_l adc_sl <= fst (ReferenceLine.lane_width reference_line s) ->
  - snd (ReferenceLine.lane_width reference_line s) <= SLBoundary.start_l adc_sl ->
  expand_at adc_sl reference_line s
  = Returns
      (- snd (ReferenceLine.lane_width reference_line s),
       fst (ReferenceLine.lane_width reference_line s))
      [LaneWidthQuery s].
Proof.
  intros Hl Hr. apply Qltb_false in Hl. apply Qltb_false in Hr.
  unfold expand_at, ReferenceLine.GetLaneWidth. cbn [bind].
  rewrite Hl, Hr. reflexivity.
Qed.

Lemma expand_nth (adc_sl : SLBoundary.t) (qp_delta_s : Q)
      (reference_line : ReferenceLine.t) (lateral_bounds bs : Bounds)
      (start_s acc : Q) (q : list Query) (i : nat) :
  expand adc_sl qp_delta_s reference_line lateral_bounds start_s
  = Returns (bs, acc) q ->
  (i < length lateral_bounds)%nat ->
  nth_error bs i
  = value (expand_at adc_sl reference_line (station start_s qp_delta_s i)).
Proof.
  intros He Hi.
  destruct (expand_returns adc_sl qp_delta_s reference_line lateral_bounds
              start_s) as (bs' & q' & He' & _ & Hnth & _).
  rewrite He in He'. injection He' as -> _ _. symmetry. now apply Hnth.
Qed.

(** C6. At every station [s_i] where the vehicle reaches left of the lane
    ([end_l] above the left lane width), the bound of the base corridor is
    [- lane_right] below and [std::min(end_l, road_left)], the smaller of
    the two, above; [s_i] is [start_s + i * qp_delta_s]. *)
Theorem base_bound_off_lane_left
        (adc_sl : SLBoundary.t) (qp_delta_s : Q)
        (reference_line : ReferenceLine.t) (N : nat) (start_s acc : Q)
        (bs : Bounds) (q : list Query) (i : nat) :
  let s_i := station start_s qp_delta_s i in
  let lane := ReferenceLine.lane_width reference_line s_i in
  let road := ReferenceLine.road_width reference_line s_i in
  expand adc_sl qp_delta_s reference_line (repeat (0, 0) N) start_s
  = Returns (bs, acc) q ->
  (i < N)%nat ->
  fst lane < SLBoundary.end_l adc_sl ->
  nth_error bs i
  = Some (- snd lane, Std.min (SLBoundary.end_l adc_sl) (fst road))
  /\ Std.min (SLBoundary.end_l adc_sl) (fst road)
     == Qmin (SLBoundary.end_l adc_sl) (fst road)
  /\ s_i == start_s + inject_Z (Z.of_nat i) * qp_delta_s.
Proof.
  intros s_i lane road He Hi Hoff. split; [ | split ].
  - rewrite (expand_nth _ _ _ _ _ _ _ _ i He) by now rewrite repeat_length.
    fold s_i. now rewrite expand_at_off_left.
  - apply std_min_is_Qmin.
  - apply station_eq.
Qed.

Lemma base_bound_off_lane_left_witness :
  let adc_sl := SLBoundary.Build (-4) 1 2 3.5 in
  nth_error [(-3, 3.5); (-3, 3.5)] 1 = Some (- (3), Std.min 3.5 5)
  /\ Std.min 3.5 5 == Qmin 3.5 5
  /\ station 0 1 1 == 0 + inject_Z (Z.of_nat 1) * 1.
Proof.
  intro adc_sl.
  apply (base_bound_off_lane_left adc_sl 1 Scene.straight 2 0 (0 + 1 + 1)
           [(-3, 3.5); (-3, 3.5)]
           (flat_map (fun s => [LaneWidthQuery s; RoadWidthQuery s])
              [0; 0 + 1])
           1).
  - reflexivity.
  - lia.
  - reflexivity.
Defined.

(** C10. At every station [s_i] where the vehicle is within the lane, its
    sides on the edges included ([end_l] at most the left lane width and
    [start_l] at least [- lane_right]), the bound of the base corridor is
    [(- lane_right, lane_left)], and the road width is not asked for at
    [s_i]: the station makes the lane query only, and the queries of the
    whole first loop have no road query at [s_i]. *)
Theorem base_bound_inside_lane
        (adc_sl : SLBoundary.t) (qp_delta_s : Q)
        (reference_line : ReferenceLine.t) (N : nat) (start_s acc : Q)
        (bs : Bounds) (q : list Query) (i : nat) :
  let s_i := station start_s qp_delta_s i in
  let lane := ReferenceLine.lane_width reference_line s_i in
  expand adc_sl qp_delta_s reference_line (repeat (0, 0) N) start_s
  = Returns (bs, acc) q ->
  (i < N)%nat ->
  SLBoundary.end_l adc_sl <= fst lane ->
  - snd lane <= SLBoundary.start_l adc_sl ->
  nth_error bs i = Some (- snd lane, fst lane)
  /\ expand_at adc_sl reference_line s_i
     = Returns (- snd lane, fst lane) [LaneWidthQuery s_i]
  /\ ~ In (RoadWidthQuery s_i) q.
Proof.
  intros s_i lane He Hi Hl Hr.
  pose proof (expand_at_inside adc_sl reference_line s_i Hl Hr) as Hat.
  split; [ | split ].
  - rewrite (expand_nth _ _ _ _ _ _ _ _ i He) by now rewrite repeat_length.
    fold s_i. now rewrite Hat.
  - exact Hat.
  - intro Hin.
    destruct (expand_returns adc_sl qp_delta_s reference_line
                (repeat (0, 0) N) start_s) as (bs' & q' & He' & _ & _ & Hq).
    rewrite He in He'. injection He' as _ _ ->.
    destruct (Hq _ Hin) as (j & b & qj & _ & Hj & Hinj).
    destruct (expand_at_returns adc_sl reference_line
                (station start_s qp_delta_s j)) as (b' & qj' & Hj' & Hqj).
    rewrite Hj in Hj'. injection Hj' as _ <-.
    destruct Hqj as [ -> | -> ].
    + destruct Hinj as [ E | [] ]. discriminate.
    + destruct Hinj as [ E | [ E | [] ] ]; [ discriminate | ].
      injection E as E. fold s_i in Hat. rewrite <- E in Hat.
      rewrite Hat in Hj. discriminate.
Qed.

Lemma base_bound_inside_lane_witness :
  let adc_sl := SLBoundary.Build (-4) 1 (-3) 3 in
  nth_error [(-3, 3); (-3, 3)] 1 = Some (- (3), 3)
  /\ expand_at adc_sl Scene.straight (station 0 1 1)
     = Returns (- (3), 3) [LaneWidthQuery (station 0 1 1)]
  /\ ~ In (RoadWidthQuery (station 0 1 1)) (map LaneWidthQuery [0; 0 + 1]).
Proof.
  intro adc_sl.
  apply (base_bound_inside_lane adc_sl 1 Scene.straight 2 0 (0 + 1 + 1)
           [(-3, 3); (-3, 3)] (map LaneWidthQuery [0; 0 + 1]) 1).
  - reflexivity.
  - lia.
  - discriminate.
  - discriminate.
Defined.

(** [GetLateralBounds] is the first loop followed by the loop over the
    obstacles; without obstacles it returns the base corridor. *)
Lemma GetLateralBounds_no_obstacles
      (config_ : QpPiecewiseJerkPathConfig.t) (info : ReferenceLineInfo.t)
      (adc_sl : SLBoundary.t) (frenet_point : FrenetFramePoint.t)
      (qp_delta_s path_length : Q) (reference_line : ReferenceLine.t)
      (obstacles : list PathObstacle.t) (size : Z) :
  bounds_size qp_delta_s path_length = Some size ->
  ReferenceLineInfo.path_obstacles info = [] ->
  exists bs q,
    expand adc_sl qp_delta_s reference_line (repeat (0, 0) (Z.to_nat size))
      (FrenetFramePoint.s frenet_point)
    = Returns
        (bs, station (FrenetFramePoint.s frenet_point) qp_delta_s
               (Z.to_nat size)) q
    /\ length bs = Z.to_nat size
    /\ GetLateralBounds config_ info adc_sl frenet_point qp_delta_s path_length
         reference_line obstacles
       = Returns bs q.
Proof.
  intros Hsize Hnone.
  destruct (expand_returns adc_sl qp_delta_s reference_line
              (repeat (0, 0) (Z.to_nat size))
              (FrenetFramePoint.s frenet_point)) as (bs & q & He & Hlen & _).
  rewrite repeat_length in He, Hlen.
  exists bs, q. split; [ exact He | ]. split; [ exact Hlen | ].
  unfold GetLateralBounds. rewrite Hsize. cbn [defined]. rewrite bind_ret_l.
  rewrite He, Hnone. cbn. now rewrite app_nil_r.
Qed.

(** ** Obstacles left out of the shrinking *)

Lemma participates_false (start_s horizon_end : Q) (o : PathObstacle.t) :
  participates start_s horizon_end o = false <->
  Obstacle.IsStatic (PathObstacle.obstacle o) = false
  \/ SLBoundary.end_s (PathObstacle.PerceptionSLBoundary o) < start_s
  \/ horizon_end < SLBoundary.start_s (PathObstacle.PerceptionSLBoundary o).
Proof.
  unfold participates.
  rewrite !andb_false_iff, !negb_false_iff, !Qltb_true. tauto.
Qed.

Section ShrinkAll.

Variable config_ : QpPiecewiseJerkPathConfig.t.
Variable adc_sl : SLBoundary.t.
Variable qp_delta_s : Q.
Variable reference_line : ReferenceLine.t.
Variable start_s accumulated_s : Q.
Variable keep : PathObstacle.t -> bool.

Hypothesis skipped :
  forall v o,
    keep o = false ->
    shrink config_ adc_sl qp_delta_s reference_line start_s accumulated_s v o
    = Returns v [].

(** The obstacles that the loop body skips can be left out of the loop. *)
Lemma shrink_all_filter (obstacles : list PathObstacle.t) (v : Bounds) :
  shrink_all config_ adc_sl qp_delta_s reference_line start_s accumulated_s
    v obstacles
  = shrink_all config_ adc_sl qp_delta_s reference_line start_s accumulated_s
      v (filter keep obstacles).
Proof.
  revert v. induction obstacles as [ | o rest IH ]; intro v; simpl.
  - reflexivity.
  - destruct (keep o) eqn:Hk; simpl.
    + unfold bind.
      destruct (shrink config_ adc_sl qp_delta_s reference_line start_s
                  accumulated_s v o); try reflexivity.
      now rewrite IH.
    + rewrite (skipped v o Hk). change (Returns v []) with (ret v).
      rewrite bind_ret_l. apply IH.
Qed.

End ShrinkAll.

(** The loop body skips the obstacles that are not static, that end before
    [start_s], or that start after [accumulated_s]. *)
Lemma shrink_skips (config_ : QpPiecewiseJerkPathConfig.t) (adc_sl : SLBoundary.t)
      (qp_delta_s : Q) (reference_line : ReferenceLine.t)
      (start_s accumulated_s horizon_end : Q) (v : Bounds) (o : PathObstacle.t) :
  accumulated_s == horizon_end ->
  participates start_s horizon_end o = false ->
  shrink config_ adc_sl qp_delta_s reference_line start_s accumulated_s v o
  = Returns v [].
Proof.
  intros Hacc Hp. apply participates_false in Hp.
  destruct Hp as [Hs | [Hb | Hy]].
  - now apply shrink_not_static.
  - now apply shrink_behind.
  - apply shrink_beyond. now rewrite Hacc.
Qed.

(** C5, as the code has it.  With [N] the number of stations, an obstacle
    takes part in the shrinking only if it is static and its longitudinal
    extent meets the stations from [start_s] to [accumulated_s] as the
    first loop leaves it, which is [start_s] with [qp_delta_s] added [N]
    times, one addition after the other: one step past the last station.
    On an obstacle that is not static, or ends before [start_s], or starts
    after this [accumulated_s], the loop body leaves every bound as it
    was, and [GetLateralBounds] returns what it returns without these
    obstacles. *)
Theorem obstacles_outside_horizon_ignored
        (config_ : QpPiecewiseJerkPathConfig.t) (info : ReferenceLineInfo.t)
        (adc_sl : SLBoundary.t) (frenet_point : FrenetFramePoint.t)
        (qp_delta_s path_length : Q) (reference_line : ReferenceLine.t)
        (obstacles : list PathObstacle.t) (size : Z) :
  let N := Z.to_nat size in
  let start_s := FrenetFramePoint.s frenet_point in
  let accumulated_s := station start_s qp_delta_s N in
  bounds_size qp_delta_s path_length = Some size ->
  (forall (v : Bounds) (o : PathObstacle.t),
      Obstacle.IsStatic (PathObstacle.obstacle o) = false
      \/ SLBoundary.end_s (PathObstacle.PerceptionSLBoundary o) < start_s
      \/ accumulated_s
         < SLBoundary.start_s (PathObstacle.PerceptionSLBoundary o) ->
      shrink config_ adc_sl qp_delta_s reference_line start_s accumulated_s v o
      = Returns v [])
  /\ GetLateralBounds config_ info adc_sl frenet_point qp_delta_s path_length
       reference_line obstacles
     = GetLateralBounds config_
         (ReferenceLineInfo.Build (ReferenceLineInfo.AdcSlBoundary info)
            (filter (participates start_s accumulated_s)
               (ReferenceLineInfo.path_obstacles info)))
         adc_sl frenet_point qp_delta_s path_length reference_line obstacles.
Proof.
  intros N start_s accumulated_s Hsize.
  assert (Hskip : forall v o,
             participates start_s accumulated_s o = false ->
             shrink config_ adc_sl qp_delta_s reference_line start_s
               accumulated_s v o = Returns v []).
  { intros v o Hp. apply (shrink_skips _ _ _ _ _ _ accumulated_s);
      [ apply Qeq_refl | exact Hp ]. }
  split.
  - intros v o Ho. apply Hskip. now apply participates_false.
  - unfold GetLateralBounds. rewrite Hsize. cbn [defined]. rewrite !bind_ret_l.
    fold N. fold start_s.
    destruct (expand_returns adc_sl qp_delta_s reference_line
                (repeat (0, 0) N) start_s) as (bs & q & He & _).
    rewrite repeat_length in He. fold accumulated_s in He. rewrite He.
    cbn [bind]. cbn [ReferenceLineInfo.path_obstacles].
    now rewrite (shrink_all_filter _ _ _ _ _ _ _ Hskip).
Qed.

Lemma obstacles_outside_horizon_ignored_witness :
  let v := [(-3, 3); (-1, 2)] in
  shrink Scene.narrow_buffer Scene.adc 1 Scene.straight 0 (station 0 1 2) v
    (Scene.static 2.5 4 0.5 1.5)
  = Returns v []
  /\ GetLateralBounds Scene.narrow_buffer
       (Scene.info [Scene.moving 0 1 0.5 1.5; Scene.static 1.5 3 0.5 1.5;
                    Scene.static 2.5 4 0.5 1.5])
       Scene.adc Scene.origin 1 2 Scene.straight []
     = GetLateralBounds Scene.narrow_buffer
         (Scene.info [Scene.static 1.5 3 0.5 1.5])
         Scene.adc Scene.origin 1 2 Scene.straight [].
Proof.
  intro v.
  destruct (obstacles_outside_horizon_ignored Scene.narrow_buffer
              (Scene.info [Scene.moving 0 1 0.5 1.5; Scene.static 1.5 3 0.5 1.5;
                           Scene.static 2.5 4 0.5 1.5])
              Scene.adc Scene.origin 1 2 Scene.straight [] 2 eq_refl)
    as [Hbody Hall].
  split.
  - apply Hbody. right. right. reflexivity.
  - exact Hall.
Defined.

(** The claim C5 as it is stated fails: with two stations, [0] and [1], a
    static obstacle that starts at [1.5], past the last station, is not
    skipped, and lowers the upper bound of the last station. *)
Lemma obstacle_past_last_station_shrinks :
  let o := Scene.static 1.5 3 0.5 1.5 in
  bounds_size 1 2 = Some 2%Z
  /\ Obstacle.IsStatic (PathObstacle.obstacle o) = true
  /\ station 0 1 1 < SLBoundary.start_s (PathObstacle.PerceptionSLBoundary o)
  /\ value (GetLateralBounds Scene.narrow_buffer (Scene.info [])
              Scene.adc Scene.origin 1 2 Scene.straight [])
     = Some [(-3, 3); (-3, 3)]
  /\ value (GetLateralBounds Scene.narrow_buffer (Scene.info [o])
              Scene.adc Scene.origin 1 2 Scene.straight [])
     = Some [(-3, 3); (-3, 0.5)]
  /\ shrink Scene.narrow_buffer Scene.adc 1 Scene.straight 0 (station 0 1 2)
       [(-3, 3); (-3, 3)] o
     <> Returns [(-3, 3); (-3, 3)] [].
Proof.
  intro o. repeat split; try reflexivity. discriminate.
Qed.

(** ** General obstacles with room on a side *)

Section PassOnASide.

Variable config_ : QpPiecewiseJerkPathConfig.t.
Variable adc_sl : SLBoundary.t.
Variable qp_delta_s : Q.
Variable reference_line : ReferenceLine.t.
Variable start_s accumulated_s : Q.
Variable v : Bounds.
Variable o : PathObstacle.t.
Variable start_iter end_iter : nat.
Variable l_lower l_upper : Q.

Local Abbreviation obstacle_sl := (PathObstacle.PerceptionSLBoundary o).
Local Abbreviation buffered := (buffered_adc_width config_ adc_sl).

Hypothesis processed :
  processes qp_delta_s start_s accumulated_s v o start_iter end_iter
    l_lower l_upper.

Hypothesis general :
  ~ SLBoundary.end_s obstacle_sl < SLBoundary.end_s adc_sl.

Lemma pass_left :
  buffered < l_upper - SLBoundary.end_l obstacle_sl ->
  exists v',
    shrink config_ adc_sl qp_delta_s reference_line start_s accumulated_s v o
    = Returns v' []
    /\ length v' = length v
    /\ all_in_range v' start_iter end_iter
         (Std.max l_lower (SLBoundary.end_l obstacle_sl), l_upper)
    /\ same_outside v v' start_iter end_iter.
Proof.
  intro Hleft. rewrite (shrink_processes _ _ _ _ _ _ _ _ _ _ _ _ processed).
  unfold handle_obstacle.
  replace (Qltb (SLBoundary.end_s obstacle_sl) (SLBoundary.end_s adc_sl))
    with false by (symmetry; apply Qltb_false; now apply Qnot_lt_le).
  apply Qltb_true in Hleft. rewrite Hleft. rewrite bind_ret_l.
  apply assign_both.
  exact (l_lower_in_valid _ _ _ _ (lower_read _ _ _ _ _ _ _ _ _ processed)).
Qed.

Lemma pass_right :
  ~ buffered < l_upper - SLBoundary.end_l obstacle_sl ->
  buffered < SLBoundary.start_l obstacle_sl - l_lower ->
  exists v',
    shrink config_ adc_sl qp_delta_s reference_line start_s accumulated_s v o
    = Returns v' []
    /\ length v' = length v
    /\ all_in_range v' start_iter end_iter
         (l_lower, Std.min l_upper (SLBoundary.start_l obstacle_sl))
    /\ same_outside v v' start_iter end_iter.
Proof.
  intros Hleft Hright.
  rewrite (shrink_processes _ _ _ _ _ _ _ _ _ _ _ _ processed).
  unfold handle_obstacle.
  replace (Qltb (SLBoundary.end_s obstacle_sl) (SLBoundary.end_s adc_sl))
    with false by (symmetry; apply Qltb_false; now apply Qnot_lt_le).
  replace (Qltb buffered (l_upper - SLBoundary.end_l obstacle_sl))
    with false by (symmetry; apply Qltb_false; now apply Qnot_lt_le).
  replace (Qltb buffered (- l_lower + SLBoundary.start_l obstacle_sl))
    with true.
  - rewrite bind_ret_l. apply assign_both.
    exact (l_lower_in_valid _ _ _ _ (lower_read _ _ _ _ _ _ _ _ _ processed)).
  - symmetry. apply Qltb_true.
    setoid_replace (- l_lower + SLBoundary.start_l obstacle_sl)
      with (SLBoundary.start_l obstacle_sl - l_lower) by ring.
    exact Hright.
Qed.

(** A blocking obstacle on the reference line: the range is assigned the
    two values read over it. *)
Lemma blocked_on_reference_line :
  ~ buffered < l_upper - SLBoundary.end_l obstacle_sl ->
  ~ buffered < SLBoundary.start_l obstacle_sl - l_lower ->
  SLBoundary.start_l obstacle_sl * SLBoundary.end_l obstacle_sl < 0 ->
  exists v',
    shrink config_ adc_sl qp_delta_s reference_line start_s accumulated_s v o
    = Returns v' []
    /\ length v' = length v
    /\ all_in_range v' start_iter end_iter (l_lower, l_upper)
    /\ same_outside v v' start_iter end_iter.
Proof.
  intros Hleft Hright Hon.
  rewrite (shrink_processes _ _ _ _ _ _ _ _ _ _ _ _ processed).
  unfold handle_obstacle.
  replace (Qltb (SLBoundary.end_s obstacle_sl) (SLBoundary.end_s adc_sl))
    with false by (symmetry; apply Qltb_false; now apply Qnot_lt_le).
  replace (Qltb buffered (l_upper - SLBoundary.end_l obstacle_sl))
    with false by (symmetry; apply Qltb_false; now apply Qnot_lt_le).
  replace (Qltb buffered (- l_lower + SLBoundary.start_l obstacle_sl))
    with false.
  - apply Qltb_true in Hon. rewrite Hon. rewrite bind_ret_l.
    apply assign_both.
    exact (l_lower_in_valid _ _ _ _ (lower_read _ _ _ _ _ _ _ _ _ processed)).
  - symmetry. apply Qltb_false. apply Qnot_lt_le.
    setoid_replace (- l_lower + SLBoundary.start_l obstacle_sl)
      with (SLBoundary.start_l obstacle_sl - l_lower) by ring.
    exact Hright.
Qed.

(** The range of a well-formed obstacle has a station. *)
Lemma processed_range :
  0 < qp_delta_s ->
  SLBoundary.start_s obstacle_sl <= SLBoundary.end_s obstacle_sl ->
  (start_iter < end_iter <= length v)%nat.
Proof.
  intros Hd Hs.
  pose proof (l_lower_in_valid _ _ _ _
                (lower_read _ _ _ _ _ _ _ _ _ processed)) as Hv.
  apply valid_range_bounds in Hv.
  pose proof (start_found _ _ _ _ _ _ _ _ _ processed) as Ha.
  pose proof (end_found _ _ _ _ _ _ _ _ _ processed) as Hb.
  destruct (find_s_iter qp_delta_s start_s v (SLBoundary.end_s obstacle_sl))
    as [ e | ] eqn:He; [ | discriminate ].
  injection Hb as <-.
  pose proof (find_s_iter_le _ _ _ _ _ _ _ Hd Hs Ha He). lia.
Qed.

End PassOnASide.

(** X22. With [l_lower] and [l_upper] the two values that the loop body
    reads over the range, for a static obstacle that the loop body
    processes and that does not end before the vehicle's front: if
    [l_upper - end_l] exceeds
    [buffered_adc_width], every station of its range gets the lower bound
    [std::max(l_lower, end_l)], which is [end_l], and the upper bound
    [l_upper]; otherwise, if [start_l - l_lower] exceeds it, every station
    of its range gets the lower bound [l_lower] and the upper bound
    [std::min(l_upper, start_l)], which is [start_l]; the bounds outside
    the range stay.  With the bounds of the range all [(-3, 3)], the
    obstacle from [0.5] to [1.5] and [buffered_adc_width] of [1.8], every
    station of the range gets [(-3, 0.5)]. *)
Theorem general_obstacle_passed_on_a_side
        (config_ : QpPiecewiseJerkPathConfig.t) (adc_sl : SLBoundary.t)
        (qp_delta_s : Q) (reference_line : ReferenceLine.t)
        (start_s accumulated_s : Q) (v : Bounds) (o : PathObstacle.t)
        (start_iter end_iter : nat) (l_lower l_upper : Q) :
  let obstacle_sl := PathObstacle.PerceptionSLBoundary o in
  let buffered := buffered_adc_width config_ adc_sl in
  let body :=
    shrink config_ adc_sl qp_delta_s reference_line start_s accumulated_s in
  processes qp_delta_s start_s accumulated_s v o start_iter end_iter
    l_lower l_upper ->
  ~ SLBoundary.end_s obstacle_sl < SLBoundary.end_s adc_sl ->
  (buffered < l_upper - SLBoundary.end_l obstacle_sl ->
   Std.max l_lower (SLBoundary.end_l obstacle_sl) == SLBoundary.end_l obstacle_sl
   /\ exists v',
       body v o = Returns v' []
       /\ all_in_range v' start_iter end_iter
            (Std.max l_lower (SLBoundary.end_l obstacle_sl), l_upper)
       /\ same_outside v v' start_iter end_iter)
  /\ (~ buffered < l_upper - SLBoundary.end_l obstacle_sl ->
      buffered < SLBoundary.start_l obstacle_sl - l_lower ->
      Std.min l_upper (SLBoundary.start_l obstacle_sl)
      == SLBoundary.start_l obstacle_sl
      /\ exists v',
          body v o = Returns v' []
          /\ all_in_range v' start_iter end_iter
               (l_lower, Std.min l_upper (SLBoundary.start_l obstacle_sl))
          /\ same_outside v v' start_iter end_iter)
  /\ (0 < qp_delta_s ->
      SLBoundary.start_s obstacle_sl <= SLBoundary.end_s obstacle_sl ->
      all_in_range v start_iter end_iter (-3, 3) ->
      SLBoundary.start_l obstacle_sl = 0.5 ->
      SLBoundary.end_l obstacle_sl = 1.5 ->
      buffered == 1.8 ->
      exists v',
        body v o = Returns v' []
        /\ all_in_range v' start_iter end_iter (-3, 0.5)
        /\ same_outside v v' start_iter end_iter).
Proof.
  intros obstacle_sl buffered body Hp Hg. split; [ | split ].
  - intro Hleft. split.
    + apply std_max_raises. apply Qnot_lt_le.
      exact (not_right_of_range _ _ _ _ _ _ _ _ _ Hp).
    + destruct (pass_left config_ adc_sl qp_delta_s reference_line start_s
                  accumulated_s v o start_iter end_iter l_lower l_upper
                  Hp Hg Hleft) as (v' & Hv' & _ & Hin & Hout).
      now exists v'.
  - intros Hleft Hright. split.
    + apply std_min_lowers. apply Qnot_lt_le.
      exact (not_left_of_range _ _ _ _ _ _ _ _ _ Hp).
    + destruct (pass_right config_ adc_sl qp_delta_s reference_line start_s
                  accumulated_s v o start_iter end_iter l_lower l_upper
                  Hp Hg Hleft Hright) as (v' & Hv' & _ & Hin & Hout).
      now exists v'.
  - intros Hd Hs Hall Hsl Hel Hb.
    pose proof (processed_range qp_delta_s start_s accumulated_s v o
                  start_iter end_iter l_lower l_upper Hp Hd Hs) as Hr.
    pose proof (lower_read _ _ _ _ _ _ _ _ _ Hp) as Hlo.
    pose proof (upper_read _ _ _ _ _ _ _ _ _ Hp) as Hup.
    rewrite (l_lower_in_uniform _ _ _ _ Hr Hall) in Hlo.
    rewrite (l_upper_in_uniform _ _ _ _ Hr Hall) in Hup.
    cbn [fst snd] in Hlo, Hup. injection Hlo as Hlo. injection Hup as Hup.
    subst l_lower l_upper.
    destruct (pass_right config_ adc_sl qp_delta_s reference_line start_s
                accumulated_s v o start_iter end_iter (-3) 3 Hp Hg)
      as (v' & Hv' & _ & Hin & Hout).
    + fold obstacle_sl. fold buffered. rewrite Hel, Hb. discriminate.
    + fold obstacle_sl. fold buffered. rewrite Hsl, Hb. reflexivity.
    + exists v'. fold obstacle_sl in Hin. rewrite Hsl in Hin. now split.
Qed.

Lemma general_obstacle_passed_on_a_side_witness :
  let v := repeat (-3, 3) 5%nat in
  let o := Scene.static 2 3 0.5 1.5 in
  exists v',
    shrink Scene.narrow_buffer Scene.adc 1 Scene.straight 0 5 v o
    = Returns v' []
    /\ all_in_range v' 2 4 (-3, 0.5)
    /\ same_outside v v' 2 4.
Proof.
  intros v o.
  assert (Hp : processes 1 0 5 v o 2 4 (-3) 3).
  { constructor; try reflexivity; discriminate. }
  assert (Hg : ~ SLBoundary.end_s (PathObstacle.PerceptionSLBoundary o)
                 < SLBoundary.end_s Scene.adc) by discriminate.
  destruct (general_obstacle_passed_on_a_side Scene.narrow_buffer Scene.adc 1
              Scene.straight 0 5 v o 2 4 (-3) 3 Hp Hg) as (_ & _ & Hex).
  apply Hex.
  - reflexivity.
  - discriminate.
  - intros i Hi.
    destruct i as [ | [ | [ | [ | i ] ] ] ]; try lia; reflexivity.
  - reflexivity.
  - reflexivity.
  - reflexivity.
Defined.

(** C4, at an input where the code departs from it.  Over the two stations
    [(-3, 3)] and [(-1, 2)] the largest lower bound is [-1] and the
    smallest upper bound [2]; a static obstacle from [-0.9] to [-0.5],
    ahead of the vehicle, meets them, and [2 - (-0.5)] exceeds the
    [buffered_adc_width] of [1.8]: the claim gives both stations the lower
    bound [-0.5] and the upper bound [2].  The loop body reads [l_upper] as
    [3] and assigns [(-0.5, 3)]: the upper bound of the second station is
    raised from [2] to [3]. *)
Theorem general_obstacle_assigns_read_upper_bound :
  let v := [(-3, 3); (-1, 2)] in
  let o := Scene.static 0 1.5 (-0.9) (-0.5) in
  let obstacle_sl := PathObstacle.PerceptionSLBoundary o in
  let buffered := buffered_adc_width Scene.narrow_buffer Scene.adc in
  value (GetLateralBounds Scene.narrow_buffer (Scene.info []) Scene.adc
           Scene.origin 1 2 Scene.narrowing [])
  = Some v
  /\ Obstacle.IsStatic (PathObstacle.obstacle o) = true
  /\ ~ SLBoundary.end_s obstacle_sl < SLBoundary.end_s Scene.adc
  /\ find_s_iter 1 0 v (SLBoundary.start_s obstacle_sl) = Some 0%nat
  /\ find_s_iter 1 0 v (SLBoundary.end_s obstacle_sl) = Some 1%nat
  /\ spec_l_lower v 0 2 = Some (-1)
  /\ spec_l_upper v 0 2 = Some 2
  /\ ~ 2 < SLBoundary.start_l obstacle_sl
  /\ ~ SLBoundary.end_l obstacle_sl < -1
  /\ buffered < 2 - SLBoundary.end_l obstacle_sl
  /\ l_lower_in v 0 2 = Some (-3)
  /\ l_upper_in v 0 2 = Some 3
  /\ nth_error v 1 = Some (-1, 2)
  /\ shrink Scene.narrow_buffer Scene.adc 1 Scene.narrowing 0 (station 0 1 2)
       v o
     = Returns [(-0.5, 3); (-0.5, 3)] []
  /\ value (GetLateralBounds Scene.narrow_buffer (Scene.info [o]) Scene.adc
              Scene.origin 1 2 Scene.narrowing [])
     = Some [(-0.5, 3); (-0.5, 3)].
Proof.
  intros v o obstacle_sl buffered.
  repeat split; try reflexivity; discriminate.
Qed.

(** ** The station range of an obstacle *)

(** When [find_s_iter] returns, it returns the index of the spec. *)
Lemma find_s_iter_spec_index (qp_delta_s start_s : Q) (v : Bounds) (s : Q)
      (i : nat) :
  find_s_iter qp_delta_s start_s v s = Some i ->
  Z.of_nat i = spec_index start_s qp_delta_s (length v) s.
Proof.
  intro Hi. apply find_s_iter_some in Hi. destruct Hi as (_ & Ht & Hlt & E).
  unfold spec_index. lia.
Qed.

(** The conversion to [size_t] is not defined for a station that is a step
    or more behind [start_s]: [find_s_iter] has no lower clamp. *)
Lemma find_s_iter_behind (qp_delta_s start_s : Q) (v : Bounds) (s : Q) :
  0 < qp_delta_s -> s <= start_s - qp_delta_s ->
  find_s_iter qp_delta_s start_s v s = None.
Proof.
  intros Hd Hs.
  destruct (find_s_iter qp_delta_s start_s v s) as [ i | ] eqn:Hi;
    [ exfalso | reflexivity ].
  apply find_s_iter_some in Hi. destruct Hi as (_ & Ht & _).
  assert (Hq : (s - start_s) / qp_delta_s <= - (1)).
  { setoid_replace (- (1)) with ((- qp_delta_s) / qp_delta_s)
      by (field; intro E; rewrite E in Hd; discriminate).
    unfold Qdiv. apply Qmult_le_compat_r.
    - apply (Qplus_le_l _ _ start_s).
      setoid_replace (s - start_s + start_s) with s by ring.
      setoid_replace (- qp_delta_s + start_s) with (start_s - qp_delta_s) by ring.
      exact Hs.
    - apply Qlt_le_weak. now apply Qinv_lt_0_compat. }
  apply trunc_le in Hq. change (trunc (- (1))) with (-1)%Z in Hq. lia.
Qed.

(** C3, at an input where the code departs from it.  A static obstacle that
    starts two steps behind [start_s] and ends past it is in the
    longitudinal range; the spec's index of its start is [0], but the
    conversion of [-2] to [size_t] is not defined, so [find_s_iter] and
    with it [GetLateralBounds] have no defined result. *)
Theorem find_s_iter_behind_start_undefined :
  let v := [(-3, 3); (-3, 3)] in
  let o := Scene.static (-2) 1.5 0.5 1.5 in
  participates 0 (0 + inject_Z 2 * 1) o = true
  /\ spec_index 0 1 2 (-2) = 0%Z
  /\ static_cast_size_t ((-2 - 0) / 1) = None
  /\ find_s_iter 1 0 v (-2) = None
  /\ find_s_iter 1 0 v 1.5 = Some 1%nat
  /\ GetLateralBounds Scene.narrow_buffer (Scene.info [o]) Scene.adc
       Scene.origin 1 2 Scene.straight []
     = Undefined.
Proof.
  repeat split; reflexivity.
Qed.

(** ** The values read over the range *)

(** C1, at an input where the code departs from it.  Over the two stations
    [(-3, 3)] and [(-1, 2)], [l_lower] is [-3], the lower bound of the
    station of the largest upper bound, where the largest lower bound is
    [-1]; and [l_upper] is [3], the upper bound of the station of the
    smallest lower bound, where the smallest upper bound is [2].  An
    obstacle from [2.5] to [2.8], left of every upper bound but the first,
    passes the lateral test and the second station is widened to
    [(-3, 2.5)]. *)
Theorem l_lower_l_upper_read_crosswise :
  let v := [(-3, 3); (-1, 2)] in
  let o := Scene.static 0 1.5 2.5 2.8 in
  value (GetLateralBounds Scene.narrow_buffer (Scene.info []) Scene.adc
           Scene.origin 1 2 Scene.narrowing [])
  = Some v
  /\ find_s_iter 1 0 v 0 = Some 0%nat
  /\ find_s_iter 1 0 v 1.5 = Some 1%nat
  /\ l_lower_in v 0 2 = Some (-3)
  /\ spec_l_lower v 0 2 = Some (-1)
  /\ l_upper_in v 0 2 = Some 3
  /\ spec_l_upper v 0 2 = Some 2
  /\ value (GetLateralBounds Scene.narrow_buffer (Scene.info [o]) Scene.adc
              Scene.origin 1 2 Scene.narrowing [])
     = Some [(-3, 2.5); (-3, 2.5)].
Proof.
  repeat split; reflexivity.
Qed.

(** ** Blocking obstacles on the reference line *)

(** C2, at an input where the code departs from it.  A static obstacle from
    [-0.5] to [0.5] over the two stations [(-3, 3)] and [(-1, 2)], with a
    [buffered_adc_width] of [4.5], has room on neither side, with the
    values the code reads and with those of the spec alike, and lies on
    the reference line; the loop body still assigns [(l_lower, l_upper)]
    over its range, and the second station becomes [(-3, 3)]. *)
Theorem blocking_obstacle_on_reference_line_overwrites :
  let v := [(-3, 3); (-1, 2)] in
  let o := Scene.static 0 1.5 (-0.5) 0.5 in
  let obstacle_sl := PathObstacle.PerceptionSLBoundary o in
  let buffered := buffered_adc_width Scene.wide_buffer Scene.adc in
  processes 1 0 (station 0 1 2) v o 0 2 (-3) 3
  /\ ~ SLBoundary.end_s obstacle_sl < SLBoundary.end_s Scene.adc
  /\ SLBoundary.start_l obstacle_sl * SLBoundary.end_l obstacle_sl < 0
  /\ ~ buffered < 3 - SLBoundary.end_l obstacle_sl
  /\ ~ buffered < SLBoundary.start_l obstacle_sl - (-3)
  /\ spec_l_lower v 0 2 = Some (-1)
  /\ spec_l_upper v 0 2 = Some 2
  /\ ~ buffered < 2 - SLBoundary.end_l obstacle_sl
  /\ ~ buffered < SLBoundary.start_l obstacle_sl - (-1)
  /\ nth_error v 1 = Some (-1, 2)
  /\ shrink Scene.wide_buffer Scene.adc 1 Scene.narrowing 0 (station 0 1 2) v o
     = Returns [(-3, 3); (-3, 3)] []
  /\ value (GetLateralBounds Scene.wide_buffer (Scene.info [o]) Scene.adc
              Scene.origin 1 2 Scene.narrowing [])
     = Some [(-3, 3); (-3, 3)].
Proof.
  intros v o obstacle_sl buffered.
  split; [ constructor; try reflexivity; discriminate | ].
  repeat split; try reflexivity; discriminate.
Qed.

(** * Further properties of the helpers *)

(** ** The element searches *)

Section Extremes.

Variable v : Bounds.
Variable key : Q * Q -> Q.
Variable a : nat.

(** The loop of [std::max_element] keeps the first of the largest keys
    seen. *)
Lemma max_element_loop_greatest (n largest first : nat) :
  (a <= largest < first)%nat ->
  (forall j, (a <= j < first)%nat -> key (at_ v j) <= key (at_ v largest)) ->
  (forall j, (a <= j < largest)%nat -> key (at_ v j) < key (at_ v largest)) ->
  let r := max_element_loop v (fun lhs rhs => Qltb (key lhs) (key rhs))
             largest first n in
  (a <= r < first + n)%nat
  /\ (forall j, (a <= j < first + n)%nat -> key (at_ v j) <= key (at_ v r))
  /\ (forall j, (a <= j < r)%nat -> key (at_ v j) < key (at_ v r)).
Proof.
  revert largest first.
  induction n as [ | n IH ]; intros largest first Hl Hle Hlt; cbn [max_element_loop].
  - rewrite Nat.add_0_r. repeat split; try lia; assumption.
  - replace (first + S n)%nat with (S first + n)%nat by lia.
    destruct (Qltb (key (at_ v largest)) (key (at_ v first))) eqn:E.
    + apply Qltb_true in E. apply IH.
      * lia.
      * intros j Hj. destruct (Nat.eq_dec j first) as [ -> | Hne ].
        -- apply Qle_refl.
        -- apply Qle_trans with (key (at_ v largest)).
           ++ apply Hle. lia.
           ++ now apply Qlt_le_weak.
      * intros j Hj. apply Qle_lt_trans with (key (at_ v largest)).
        -- apply Hle. lia.
        -- exact E.
    + apply Qltb_false in E. apply IH.
      * lia.
      * intros j Hj. destruct (Nat.eq_dec j first) as [ -> | Hne ].
        -- exact E.
        -- apply Hle. lia.
      * exact Hlt.
Qed.

(** The loop of [std::min_element] keeps the first of the smallest keys
    seen. *)
Lemma min_element_loop_least (n smallest first : nat) :
  (a <= smallest < first)%nat ->
  (forall j, (a <= j < first)%nat -> key (at_ v smallest) <= key (at_ v j)) ->
  (forall j, (a <= j < smallest)%nat -> key (at_ v smallest) < key (at_ v j)) ->
  let r := min_element_loop v (fun lhs rhs => Qltb (key lhs) (key rhs))
             smallest first n in
  (a <= r < first + n)%nat
  /\ (forall j, (a <= j < first + n)%nat -> key (at_ v r) <= key (at_ v j))
  /\ (forall j, (a <= j < r)%nat -> key (at_ v r) < key (at_ v j)).
Proof.
  revert smallest first.
  induction n as [ | n IH ]; intros smallest first Hl Hle Hlt; cbn [min_element_loop].
  - rewrite Nat.add_0_r. repeat split; try lia; assumption.
  - replace (first + S n)%nat with (S first + n)%nat by lia.
    destruct (Qltb (key (at_ v first)) (key (at_ v smallest))) eqn:E.
    + apply Qltb_true in E. apply IH.
      * lia.
      * intros j Hj. destruct (Nat.eq_dec j first) as [ -> | Hne ].
        -- apply Qle_refl.
        -- apply Qle_trans with (key (at_ v smallest)).
           ++ now apply Qlt_le_weak.
           ++ apply Hle. lia.
      * intros j Hj. apply Qlt_le_trans with (key (at_ v smallest)).
        -- exact E.
        -- apply Hle. lia.
    + apply Qltb_false in E. apply IH.
      * lia.
      * intros j Hj. destruct (Nat.eq_dec j first) as [ -> | Hne ].
        -- exact E.
        -- apply Hle. lia.
      * exact Hlt.
Qed.

End Extremes.

Lemma at_nth_error (v : Bounds) (i : nat) (p : Q * Q) :
  nth_error v i = Some p -> at_ v i = p.
Proof.
  intro Hp. unfold at_. now apply nth_error_nth.
Qed.

(** X1. Over a range with an element, [max_pair_second] returns the
    iterator, within the range, of the first element whose second
    component is the largest: no second component of the range is above
    it, and those before it are strictly below. *)
Theorem max_pair_second_first_largest (v : Bounds) (first last : nat) :
  (first < last <= length v)%nat ->
  exists i p,
    max_pair_second v first last = Some i
    /\ (first <= i < last)%nat
    /\ deref v i = Some p
    /\ forall j q,
         (first <= j < last)%nat -> deref v j = Some q ->
         snd q <= snd p /\ ((j < i)%nat -> snd q < snd p).
Proof.
  intros [Hlt Hle]. unfold max_pair_second, max_element, valid_range, deref.
  replace (first <=? last)%nat with true by (symmetry; apply Nat.leb_le; lia).
  replace (last <=? length v)%nat with true by (symmetry; now apply Nat.leb_le).
  replace (first =? last)%nat with false by (symmetry; apply Nat.eqb_neq; lia).
  cbn [andb negb].
  destruct (max_element_loop_greatest v snd first (last - S first) first
              (S first)) as (Hr & Hmax & Hfirst).
  - lia.
  - intros j Hj. replace j with first by lia. apply Qle_refl.
  - intros j Hj. lia.
  - set (r := max_element_loop v (fun lhs rhs => Qltb (snd lhs) (snd rhs))
                first (S first) (last - S first)) in *.
    destruct (nth_error v r) as [ p | ] eqn:Hp;
      [ | apply nth_error_None in Hp; lia ].
    exists r, p. split; [ reflexivity | ]. split; [ lia | ].
    split; [ exact Hp | ].
    intros j q Hj Hq.
    apply at_nth_error in Hp. apply at_nth_error in Hq. subst p q. split.
    + apply Hmax. lia.
    + intro Hji. apply Hfirst. lia.
Qed.

Lemma max_pair_second_first_largest_witness :
  exists i p,
    max_pair_second [(-3, 1); (-1, 3); (0, 3); (-2, 2)] 0 4 = Some i
    /\ (0 <= i < 4)%nat
    /\ deref [(-3, 1); (-1, 3); (0, 3); (-2, 2)] i = Some p
    /\ forall j q,
         (0 <= j < 4)%nat ->
         deref [(-3, 1); (-1, 3); (0, 3); (-2, 2)] j = Some q ->
         snd q <= snd p /\ ((j < i)%nat -> snd q < snd p).
Proof.
  apply (max_pair_second_first_largest [(-3, 1); (-1, 3); (0, 3); (-2, 2)] 0 4).
  simpl. lia.
Defined.

(** X2. Over a range with an element, [min_pair_first] returns the
    iterator, within the range, of the first element whose first component
    is the smallest. *)
Theorem min_pair_first_first_smallest (v : Bounds) (first last : nat) :
  (first < last <= length v)%nat ->
  exists i p,
    min_pair_first v first last = Some i
    /\ (first <= i < last)%nat
    /\ deref v i = Some p
    /\ forall j q,
         (first <= j < last)%nat -> deref v j = Some q ->
         fst p <= fst q /\ ((j < i)%nat -> fst p < fst q).
Proof.
  intros [Hlt Hle]. unfold min_pair_first, min_element, valid_range, deref.
  replace (first <=? last)%nat with true by (symmetry; apply Nat.leb_le; lia).
  replace (last <=? length v)%nat with true by (symmetry; now apply Nat.leb_le).
  replace (first =? last)%nat with false by (symmetry; apply Nat.eqb_neq; lia).
  cbn [andb negb].
  destruct (min_element_loop_least v fst first (last - S first) first
              (S first)) as (Hr & Hmin & Hfirst).
  - lia.
  - intros j Hj. replace j with first by lia. apply Qle_refl.
  - intros j Hj. lia.
  - set (r := min_element_loop v (fun lhs rhs => Qltb (fst lhs) (fst rhs))
                first (S first) (last - S first)) in *.
    destruct (nth_error v r) as [ p | ] eqn:Hp;
      [ | apply nth_error_None in Hp; lia ].
    exists r, p. split; [ reflexivity | ]. split; [ lia | ].
    split; [ exact Hp | ].
    intros j q Hj Hq.
    apply at_nth_error in Hp. apply at_nth_error in Hq. subst p q. split.
    + apply Hmin. lia.
    + intro Hji. apply Hfirst. lia.
Qed.

Lemma min_pair_first_first_smallest_witness :
  exists i p,
    min_pair_first [(-1, 1); (-3, 3); (-3, 2); (-2, 2)] 0 4 = Some i
    /\ (0 <= i < 4)%nat
    /\ deref [(-1, 1); (-3, 3); (-3, 2); (-2, 2)] i = Some p
    /\ forall j q,
         (0 <= j < 4)%nat ->
         deref [(-1, 1); (-3, 3); (-3, 2); (-2, 2)] j = Some q ->
         fst p <= fst q /\ ((j < i)%nat -> fst p < fst q).
Proof.
  apply (min_pair_first_first_smallest [(-1, 1); (-3, 3); (-3, 2); (-2, 2)] 0 4).
  simpl. lia.
Defined.

(** ** The assignments over a range *)

(** X3. Over a range of the vector, [assign_pair_first] gives every element
    of the range the new first component; it keeps the second components,
    the elements outside the range and the length. *)
Theorem assign_pair_first_range (v : Bounds) (begin end_ : nat) (first : Q) :
  (begin <= end_ <= length v)%nat ->
  exists v',
    assign_pair_first v begin end_ first = Some v'
    /\ length v' = length v
    /\ forall i p,
         nth_error v i = Some p ->
         nth_error v' i
         = Some (if ((begin <=? i) && (i <? end_))%nat
                 then (first, snd p) else p).
Proof.
  intro Hr. unfold assign_pair_first.
  replace (valid_range v begin end_) with true
    by (symmetry; now apply valid_range_bounds).
  eexists. split; [ reflexivity | ]. split.
  - apply length_assign_first_loop.
  - intros i p Hp. rewrite nth_error_assign_first_loop, Hp.
    replace (begin + (end_ - begin))%nat with end_ by lia.
    now destruct ((begin <=? i) && (i <? end_))%nat.
Qed.

Lemma assign_pair_first_range_witness :
  exists v',
    assign_pair_first [(-3, 3); (-1, 2); (-2, 2)] 1 3 0 = Some v'
    /\ length v' = length [(-3, 3); (-1, 2); (-2, 2)]
    /\ forall i p,
         nth_error [(-3, 3); (-1, 2); (-2, 2)] i = Some p ->
         nth_error v' i
         = Some (if ((1 <=? i) && (i <? 3))%nat then (0, snd p) else p).
Proof.
  apply (assign_pair_first_range [(-3, 3); (-1, 2); (-2, 2)] 1 3 0).
  simpl. lia.
Defined.

(** X4. Over a range of the vector, [assign_pair_second] gives every element
    of the range the new second component; it keeps the first components,
    the elements outside the range and the length. *)
Theorem assign_pair_second_range (v : Bounds) (begin end_ : nat) (second : Q) :
  (begin <= end_ <= length v)%nat ->
  exists v',
    assign_pair_second v begin end_ second = Some v'
    /\ length v' = length v
    /\ forall i p,
         nth_error v i = Some p ->
         nth_error v' i
         = Some (if ((begin <=? i) && (i <? end_))%nat
                 then (fst p, second) else p).
Proof.
  intro Hr. unfold assign_pair_second.
  replace (valid_range v begin end_) with true
    by (symmetry; now apply valid_range_bounds).
  eexists. split; [ reflexivity | ]. split.
  - apply length_assign_second_loop.
  - intros i p Hp. rewrite nth_error_assign_second_loop, Hp.
    replace (begin + (end_ - begin))%nat with end_ by lia.
    now destruct ((begin <=? i) && (i <? end_))%nat.
Qed.

Lemma assign_pair_second_range_witness :
  exists v',
    assign_pair_second [(-3, 3); (-1, 2); (-2, 2)] 0 2 1 = Some v'
    /\ length v' = length [(-3, 3); (-1, 2); (-2, 2)]
    /\ forall i p,
         nth_error [(-3, 3); (-1, 2); (-2, 2)] i = Some p ->
         nth_error v' i
         = Some (if ((0 <=? i) && (i <? 2))%nat then (fst p, 1) else p).
Proof.
  apply (assign_pair_second_range [(-3, 3); (-1, 2); (-2, 2)] 0 2 1).
  simpl. lia.
Defined.

(** ** The values read over a range, against the intersection *)

Lemma nth_error_range_of (v : Bounds) (first last k : nat) :
  (k < last - first)%nat ->
  nth_error (range_of v first last) k = nth_error v (first + k).
Proof.
  intro Hk. unfold range_of. rewrite nth_error_firstn, nth_error_skipn.
  now replace (k <? last - first)%nat with true
    by (symmetry; now apply Nat.ltb_lt).
Qed.

Lemma fold_Qmax_upper (l : list (Q * Q)) (m : Q) :
  m <= fold_left (fun m q => Qmax m (fst q)) l m
  /\ forall q, In q l -> fst q <= fold_left (fun m q => Qmax m (fst q)) l m.
Proof.
  revert m. induction l as [ | x l IH ]; intro m; simpl.
  - split; [ apply Qle_refl | intros q [] ].
  - destruct (IH (Qmax m (fst x))) as [Hm Hin]. split.
    + apply Qle_trans with (Qmax m (fst x)); [ apply Q.le_max_l | exact Hm ].
    + intros q [ <- | Hq ].
      * apply Qle_trans with (Qmax m (fst x)); [ apply Q.le_max_r | exact Hm ].
      * now apply Hin.
Qed.

Lemma fold_Qmin_lower (l : list (Q * Q)) (m : Q) :
  fold_left (fun m q => Qmin m (snd q)) l m <= m
  /\ forall q, In q l -> fold_left (fun m q => Qmin m (snd q)) l m <= snd q.
Proof.
  revert m. induction l as [ | x l IH ]; intro m; simpl.
  - split; [ apply Qle_refl | intros q [] ].
  - destruct (IH (Qmin m (snd x))) as [Hm Hin]. split.
    + apply Qle_trans with (Qmin m (snd x)); [ exact Hm | apply Q.le_min_l ].
    + intros q [ <- | Hq ].
      * apply Qle_trans with (Qmin m (snd x)); [ exact Hm | apply Q.le_min_r ].
      * now apply Hin.
Qed.

(** The largest lower bound of a range is above the lower bound of each of
    its stations, and its smallest upper bound below each upper bound. *)
Lemma spec_l_lower_upper (v : Bounds) (first last i : nat) (p : Q * Q) (m : Q) :
  (first <= i < last)%nat -> nth_error v i = Some p ->
  spec_l_lower v first last = Some m -> fst p <= m.
Proof.
  intros Hi Hp. unfold spec_l_lower.
  assert (Hk : nth_error (range_of v first last) (i - first) = Some p).
  { rewrite nth_error_range_of by lia. now replace (first + (i - first))%nat with i by lia. }
  destruct (range_of v first last) as [ | x l ]; [ discriminate | ].
  intro E. injection E as <-.
  destruct (fold_Qmax_upper l (fst x)) as [Hm Hin].
  destruct (i - first)%nat as [ | k ]; simpl in Hk.
  - injection Hk as ->. exact Hm.
  - apply Hin. now apply nth_error_In with k.
Qed.

Lemma spec_l_upper_lower (v : Bounds) (first last i : nat) (p : Q * Q) (m : Q) :
  (first <= i < last)%nat -> nth_error v i = Some p ->
  spec_l_upper v first last = Some m -> m <= snd p.
Proof.
  intros Hi Hp. unfold spec_l_upper.
  assert (Hk : nth_error (range_of v first last) (i - first) = Some p).
  { rewrite nth_error_range_of by lia. now replace (first + (i - first))%nat with i by lia. }
  destruct (range_of v first last) as [ | x l ]; [ discriminate | ].
  intro E. injection E as <-.
  destruct (fold_Qmin_lower l (snd x)) as [Hm Hin].
  destruct (i - first)%nat as [ | k ]; simpl in Hk.
  - injection Hk as ->. exact Hm.
  - apply Hin. now apply nth_error_In with k.
Qed.

(** X5. Over a range with a station, the two values that the loop body
    reads bracket the intersection of the bounds of the range: [l_lower]
    is at most the largest lower bound and [l_upper] at least the smallest
    upper bound, so the lateral test never leaves out an obstacle that
    meets the intersection. *)
Theorem read_window_contains_intersection (v : Bounds) (first last : nat) :
  (first < last <= length v)%nat ->
  exists l_lower l_upper lower upper,
    l_lower_in v first last = Some l_lower
    /\ l_upper_in v first last = Some l_upper
    /\ spec_l_lower v first last = Some lower
    /\ spec_l_upper v first last = Some upper
    /\ l_lower <= lower
    /\ upper <= l_upper.
Proof.
  intro Hr.
  destruct (l_lower_in_defined v first last Hr) as (i & p & _ & Hi & Hp & Hlo).
  destruct (l_upper_in_defined v first last Hr) as (j & p' & _ & Hj & Hp' & Hup).
  destruct (spec_l_lower v first last) as [ lower | ] eqn:Hlower.
  - destruct (spec_l_upper v first last) as [ upper | ] eqn:Hupper.
    + exists (fst p), (snd p'), lower, upper. repeat split; try assumption.
      * exact (spec_l_lower_upper v first last i p lower Hi Hp Hlower).
      * exact (spec_l_upper_lower v first last j p' upper Hj Hp' Hupper).
    + exfalso. unfold spec_l_upper in Hupper.
      assert (Hk : nth_error (range_of v first last) 0 = nth_error v (first + 0))
        by (apply nth_error_range_of; lia).
      destruct (range_of v first last); [ | discriminate ].
      symmetry in Hk. apply nth_error_None in Hk. lia.
  - exfalso. unfold spec_l_lower in Hlower.
    assert (Hk : nth_error (range_of v first last) 0 = nth_error v (first + 0))
      by (apply nth_error_range_of; lia).
    destruct (range_of v first last); [ | discriminate ].
    symmetry in Hk. apply nth_error_None in Hk. lia.
Qed.

Lemma read_window_contains_intersection_witness :
  exists l_lower l_upper lower upper,
    l_lower_in [(-3, 3); (-1, 2)] 0 2 = Some l_lower
    /\ l_upper_in [(-3, 3); (-1, 2)] 0 2 = Some l_upper
    /\ spec_l_lower [(-3, 3); (-1, 2)] 0 2 = Some lower
    /\ spec_l_upper [(-3, 3); (-1, 2)] 0 2 = Some upper
    /\ l_lower <= lower
    /\ upper <= l_upper.
Proof.
  apply (read_window_contains_intersection [(-3, 3); (-1, 2)] 0 2).
  simpl. lia.
Defined.

(** ** The index of a station *)

Lemma trunc_above_minus_one (q : Q) : - (1) < q -> (0 <= trunc q)%Z.
Proof.
  intro Hq. destruct (Qlt_le_dec q 0) as [Hneg | Hpos].
  - rewrite trunc_neg by now apply Qlt_le_weak.
    assert (H1 : - q < inject_Z 1).
    { change (inject_Z 1) with (- - (1)). now apply Qopp_lt_compat. }
    pose proof (Qle_lt_trans _ _ _ (Qfloor_le (- q)) H1) as Hf.
    rewrite <- Zlt_Qlt in Hf. lia.
  - rewrite trunc_nonneg by assumption.
    change 0%Z with (Qfloor 0). now apply Qfloor_resp_le.
Qed.

Lemma trunc_below (q : Q) (M : Z) :
  (0 < M)%Z -> q < inject_Z M -> (trunc q < M)%Z.
Proof.
  intros HM Hq. destruct (Qlt_le_dec q 0) as [Hneg | Hpos].
  - apply Qlt_le_weak in Hneg. apply trunc_le in Hneg.
    change (trunc 0) with 0%Z in Hneg. lia.
  - rewrite trunc_nonneg by assumption.
    rewrite Zlt_Qlt. apply Qle_lt_trans with q; [ apply Qfloor_le | exact Hq ].
Qed.

(** The quotient that [find_s_iter] converts grows with the station. *)
Lemma quotient_le (qp_delta_s start_s s1 s2 : Q) :
  0 < qp_delta_s -> s1 <= s2 ->
  (s1 - start_s) / qp_delta_s <= (s2 - start_s) / qp_delta_s.
Proof.
  intros Hd Hs. unfold Qdiv. apply Qmult_le_compat_r.
  - unfold Qminus. apply Qplus_le_compat; [ assumption | apply Qle_refl ].
  - apply Qlt_le_weak. now apply Qinv_lt_0_compat.
Qed.

(** [find_s_iter] is defined when the quotient that it converts is above
    [-1] and below [2 ^ 64]. *)
Lemma find_s_iter_defined (qp_delta_s start_s : Q) (v : Bounds) (s : Q) :
  ~ qp_delta_s == 0 -> (0 < length v)%nat ->
  - (1) < (s - start_s) / qp_delta_s ->
  (s - start_s) / qp_delta_s < inject_Z (2 ^ 64) ->
  exists i, find_s_iter qp_delta_s start_s v s = Some i.
Proof.
  intros Hd Hv Hlo Hhi.
  pose proof (trunc_above_minus_one _ Hlo) as Ht0.
  pose proof (trunc_below _ (2 ^ 64) eq_refl Hhi) as Ht1.
  unfold find_s_iter, fdiv, static_cast_size_t.
  replace (Qeq_bool qp_delta_s 0) with false.
  - replace (0 <=? trunc ((s - start_s) / qp_delta_s))%Z with true
      by (symmetry; now apply Z.leb_le).
    replace (trunc ((s - start_s) / qp_delta_s) <=? SIZE_MAX)%Z with true
      by (symmetry; apply Z.leb_le; unfold SIZE_MAX; lia).
    cbn [andb].
    destruct (Z.to_nat (Std.minz (Z.of_nat (length v))
                          (trunc ((s - start_s) / qp_delta_s)))
              =? length v)%nat eqn:E; [ | eauto ].
    apply Nat.eqb_eq in E. rewrite E.
    destruct (length v); [ lia | eauto ].
  - symmetry. destruct (Qeq_bool qp_delta_s 0) eqn:E; [ | reflexivity ].
    apply Qeq_bool_eq in E. contradiction.
Qed.

(** X6. With a step that is not zero and a vector that is not empty,
    whenever the quotient [(s - start_s) / qp_delta_s] that [find_s_iter]
    converts to [size_t] is above [-1] and below [2 ^ 64], [find_s_iter]
    is defined and returns the truncated quotient clamped to the indices
    [0 .. size - 1]: never [end()]. *)
Theorem find_s_iter_clamps (qp_delta_s start_s : Q) (v : Bounds) (s : Q) :
  ~ qp_delta_s == 0 -> (0 < length v)%nat ->
  - (1) < (s - start_s) / qp_delta_s ->
  (s - start_s) / qp_delta_s < inject_Z (2 ^ 64) ->
  exists i,
    find_s_iter qp_delta_s start_s v s = Some i
    /\ (i < length v)%nat
    /\ Z.of_nat i
       = Z.max 0 (Z.min (Z.of_nat (length v) - 1)
                    (trunc ((s - start_s) / qp_delta_s))).
Proof.
  intros Hd Hv Hlo Hhi.
  destruct (find_s_iter_defined qp_delta_s start_s v s Hd Hv Hlo Hhi) as [i Hi].
  exists i. split; [ exact Hi | ].
  pose proof (find_s_iter_spec_index _ _ _ _ _ Hi) as Hspec.
  apply find_s_iter_some in Hi. destruct Hi as (_ & _ & Hlt & _).
  split; [ exact Hlt | exact Hspec ].
Qed.

Lemma find_s_iter_clamps_witness :
  let v := [(-3, 3); (-3, 3)] in
  exists i,
    find_s_iter 1 0 v 7.5 = Some i
    /\ (i < length v)%nat
    /\ Z.of_nat i
       = Z.max 0 (Z.min (Z.of_nat (length v) - 1) (trunc ((7.5 - 0) / 1))).
Proof.
  intro v. apply (find_s_iter_clamps 1 0 v 7.5).
  - discriminate.
  - simpl. lia.
  - reflexivity.
  - reflexivity.
Defined.

(** X7. With a positive step, the iterators of an obstacle whose [start_s]
    is not after its [end_s] delimit a range with a station, inside the
    vector: [start_iter < end_iter <= size]. *)
Theorem obstacle_range_not_empty (qp_delta_s start_s : Q) (v : Bounds)
        (obstacle_sl : SLBoundary.t) (start_iter end_iter : nat) :
  0 < qp_delta_s ->
  SLBoundary.start_s obstacle_sl <= SLBoundary.end_s obstacle_sl ->
  find_s_iter qp_delta_s start_s v (SLBoundary.start_s obstacle_sl)
  = Some start_iter ->
  option_map S (find_s_iter qp_delta_s start_s v (SLBoundary.end_s obstacle_sl))
  = Some end_iter ->
  (start_iter < end_iter <= length v)%nat.
Proof.
  intros Hd Hs Ha Hb.
  destruct (find_s_iter qp_delta_s start_s v (SLBoundary.end_s obstacle_sl))
    as [ e | ] eqn:He; [ | discriminate ].
  injection Hb as <-.
  pose proof (find_s_iter_le _ _ _ _ _ _ _ Hd Hs Ha He) as Hle.
  apply find_s_iter_some in He. destruct He as (_ & _ & Hlt & _). lia.
Qed.

Lemma obstacle_range_not_empty_witness :
  let v := [(-3, 3); (-3, 3)] in
  (1 < 2 <= length v)%nat.
Proof.
  intro v.
  apply (obstacle_range_not_empty 1 0 v (SLBoundary.Build 1.5 9 0.5 1.5) 1 2).
  - reflexivity.
  - discriminate.
  - reflexivity.
  - reflexivity.
Defined.

(** * Further properties of the loop over the obstacles *)

Section ShrinkBranches.

Variable config_ : QpPiecewiseJerkPathConfig.t.
Variable adc_sl : SLBoundary.t.
Variable qp_delta_s : Q.
Variable reference_line : ReferenceLine.t.
Variable start_s accumulated_s : Q.
Variable v : Bounds.
Variable o : PathObstacle.t.
Variable start_iter end_iter : nat.
Variable l_lower l_upper : Q.

Local Abbreviation obstacle_sl := (PathObstacle.PerceptionSLBoundary o).
Local Abbreviation buffered := (buffered_adc_width config_ adc_sl).
Local Abbreviation body :=
  (shrink config_ adc_sl qp_delta_s reference_line start_s accumulated_s).

(** The loop body up to its lateral test. *)
Lemma shrink_reads :
  Obstacle.IsStatic (PathObstacle.obstacle o) = true ->
  ~ SLBoundary.end_s obstacle_sl < start_s ->
  ~ accumulated_s < SLBoundary.start_s obstacle_sl ->
  find_s_iter qp_delta_s start_s v (SLBoundary.start_s obstacle_sl)
  = Some start_iter ->
  option_map S (find_s_iter qp_delta_s start_s v (SLBoundary.end_s obstacle_sl))
  = Some end_iter ->
  l_lower_in v start_iter end_iter = Some l_lower ->
  l_upper_in v start_iter end_iter = Some l_upper ->
  body v o
  = if Qltb l_upper (SLBoundary.start_l obstacle_sl)
       || Qltb (SLBoundary.end_l obstacle_sl) l_lower
    then ret v
    else handle_obstacle config_ adc_sl reference_line v obstacle_sl
           start_iter end_iter l_lower l_upper.
Proof.
  intros Hst Hnb Hny Hsi Hei Hlo Hup. unfold shrink.
  rewrite Hst. cbn [negb].
  replace (Qltb (SLBoundary.end_s obstacle_sl) start_s)
    with false by (symmetry; apply Qltb_false; now apply Qnot_lt_le).
  replace (Qltb accumulated_s (SLBoundary.start_s obstacle_sl))
    with false by (symmetry; apply Qltb_false; now apply Qnot_lt_le).
  cbn [orb]. rewrite Hsi, Hei. cbn [defined]. rewrite !bind_ret_l.
  unfold l_lower_in in Hlo. unfold l_upper_in in Hup.
  destruct (max_pair_second v start_iter end_iter) as [ i | ];
    [ | discriminate ].
  cbn [defined]. rewrite bind_ret_l.
  destruct (deref v i) as [ p | ]; [ | discriminate ].
  cbn [defined]. rewrite bind_ret_l.
  destruct (min_pair_first v start_iter end_iter) as [ j | ];
    [ | discriminate ].
  cbn [defined]. rewrite bind_ret_l.
  destruct (deref v j) as [ p' | ]; [ | discriminate ].
  cbn [defined]. rewrite bind_ret_l.
  cbn [option_map] in Hlo, Hup.
  injection Hlo as Hlo. injection Hup as Hup. now rewrite Hlo, Hup.
Qed.

Hypothesis processed :
  processes qp_delta_s start_s accumulated_s v o start_iter end_iter
    l_lower l_upper.

Lemma processed_valid : (start_iter <= end_iter <= length v)%nat.
Proof.
  apply valid_range_bounds.
  exact (l_lower_in_valid _ _ _ _ (lower_read _ _ _ _ _ _ _ _ _ processed)).
Qed.

(** An obstacle beside the vehicle, on its left. *)
Lemma parallel_left :
  SLBoundary.end_s obstacle_sl < SLBoundary.end_s adc_sl ->
  SLBoundary.end_l adc_sl < SLBoundary.start_l obstacle_sl ->
  body v o
  = Returns
      (assign_second_loop v start_iter (end_iter - start_iter)
         (SLBoundary.start_l obstacle_sl)) [].
Proof.
  intros Hpar Hleft.
  rewrite (shrink_processes _ _ _ _ _ _ _ _ _ _ _ _ processed).
  unfold handle_obstacle. apply Qltb_true in Hpar, Hleft.
  rewrite Hpar, Hleft. unfold assign_pair_second.
  replace (valid_range v start_iter end_iter) with true
    by (symmetry; apply valid_range_bounds; exact processed_valid).
  reflexivity.
Qed.

(** An obstacle beside the vehicle, not on its left. *)
Lemma parallel_right :
  SLBoundary.end_s obstacle_sl < SLBoundary.end_s adc_sl ->
  ~ SLBoundary.end_l adc_sl < SLBoundary.start_l obstacle_sl ->
  body v o
  = Returns
      (assign_first_loop v start_iter (end_iter - start_iter)
         (SLBoundary.end_l obstacle_sl)) [].
Proof.
  intros Hpar Hleft.
  rewrite (shrink_processes _ _ _ _ _ _ _ _ _ _ _ _ processed).
  unfold handle_obstacle. apply Qltb_true in Hpar. rewrite Hpar.
  replace (Qltb (SLBoundary.end_l adc_sl) (SLBoundary.start_l obstacle_sl))
    with false by (symmetry; apply Qltb_false; now apply Qnot_lt_le).
  unfold assign_pair_first.
  replace (valid_range v start_iter end_iter) with true
    by (symmetry; apply valid_range_bounds; exact processed_valid).
  reflexivity.
Qed.

(** A blocking obstacle that is not on the reference line: the road width
    is asked for at its [start_s], and the range is assigned the bounds of
    the side to pass on. *)
Lemma blocked_beside_reference_line :
  ~ SLBoundary.end_s obstacle_sl < SLBoundary.end_s adc_sl ->
  ~ buffered < l_upper - SLBoundary.end_l obstacle_sl ->
  ~ buffered < SLBoundary.start_l obstacle_sl - l_lower ->
  ~ SLBoundary.start_l obstacle_sl * SLBoundary.end_l obstacle_sl < 0 ->
  let road :=
    ReferenceLine.road_width reference_line (SLBoundary.start_s obstacle_sl) in
  let bound :=
    if Qle_bool 0 (SLBoundary.start_l obstacle_sl) then
      (Std.max (SLBoundary.start_l obstacle_sl - buffered) (- snd road),
       SLBoundary.start_l obstacle_sl)
    else
      (SLBoundary.end_l obstacle_sl,
       Std.min (SLBoundary.end_l obstacle_sl + buffered) (fst road)) in
  exists v',
    body v o = Returns v' [RoadWidthQuery (SLBoundary.start_s obstacle_sl)]
    /\ length v' = length v
    /\ all_in_range v' start_iter end_iter bound
    /\ same_outside v v' start_iter end_iter.
Proof.
  intros Hgen Hleft Hright Hoff road bound.
  rewrite (shrink_processes _ _ _ _ _ _ _ _ _ _ _ _ processed).
  unfold handle_obstacle.
  replace (Qltb (SLBoundary.end_s obstacle_sl) (SLBoundary.end_s adc_sl))
    with false by (symmetry; apply Qltb_false; now apply Qnot_lt_le).
  replace (Qltb buffered (l_upper - SLBoundary.end_l obstacle_sl))
    with false by (symmetry; apply Qltb_false; now apply Qnot_lt_le).
  replace (Qltb buffered (- l_lower + SLBoundary.start_l obstacle_sl))
    with false.
  - replace (Qltb (SLBoundary.start_l obstacle_sl
                   * SLBoundary.end_l obstacle_sl) 0)
      with false by (symmetry; apply Qltb_false; now apply Qnot_lt_le).
    unfold ReferenceLine.GetRoadWidth. fold road.
    destruct (assign_both v start_iter end_iter (fst bound) (snd bound))
      as (v' & Hv' & Hlen & Hin & Hout).
    { apply valid_range_bounds. exact processed_valid. }
    exists v'. split; [ | split; [ exact Hlen | split; [ | exact Hout ] ] ].
    + unfold bound in Hv'.
      destruct (Qle_bool 0 (SLBoundary.start_l obstacle_sl));
        cbn [ret fst snd bind] in Hv' |- *;
        match goal with
        | |- match ?m with _ => _ end = _ =>
            replace m with (Returns v' (@nil Query)) by (symmetry; exact Hv')
        end; reflexivity.
    + now rewrite (surjective_pairing bound).
  - symmetry. apply Qltb_false. apply Qnot_lt_le.
    setoid_replace (- l_lower + SLBoundary.start_l obstacle_sl)
      with (SLBoundary.start_l obstacle_sl - l_lower) by ring.
    exact Hright.
Qed.

End ShrinkBranches.

Lemma in_range_test (first last i : nat) :
  (first <= last)%nat ->
  ((first <=? i) && (i <? first + (last - first)))%nat = true
  <-> (first <= i < last)%nat.
Proof.
  intro Hr. rewrite andb_true_iff, Nat.leb_le, Nat.ltb_lt. lia.
Qed.

(** X8. An obstacle that is static and in the longitudinal range, but whose
    lateral extent lies left of [l_upper] or right of [l_lower], the two
    values read over its range, is skipped: every bound is left as it was
    and the reference line is not queried. *)
Theorem obstacle_outside_lateral_range_skipped
        (config_ : QpPiecewiseJerkPathConfig.t) (adc_sl : SLBoundary.t)
        (qp_delta_s : Q) (reference_line : ReferenceLine.t)
        (start_s accumulated_s : Q) (v : Bounds) (o : PathObstacle.t)
        (start_iter end_iter : nat) (l_lower l_upper : Q) :
  let obstacle_sl := PathObstacle.PerceptionSLBoundary o in
  Obstacle.IsStatic (PathObstacle.obstacle o) = true ->
  ~ SLBoundary.end_s obstacle_sl < start_s ->
  ~ accumulated_s < SLBoundary.start_s obstacle_sl ->
  find_s_iter qp_delta_s start_s v (SLBoundary.start_s obstacle_sl)
  = Some start_iter ->
  option_map S (find_s_iter qp_delta_s start_s v (SLBoundary.end_s obstacle_sl))
  = Some end_iter ->
  l_lower_in v start_iter end_iter = Some l_lower ->
  l_upper_in v start_iter end_iter = Some l_upper ->
  l_upper < SLBoundary.start_l obstacle_sl
  \/ SLBoundary.end_l obstacle_sl < l_lower ->
  shrink config_ adc_sl qp_delta_s reference_line start_s accumulated_s v o
  = Returns v [].
Proof.
  intros obstacle_sl Hst Hnb Hny Hsi Hei Hlo Hup Hout.
  rewrite (shrink_reads config_ adc_sl qp_delta_s reference_line start_s
             accumulated_s v o start_iter end_iter l_lower l_upper
             Hst Hnb Hny Hsi Hei Hlo Hup).
  fold obstacle_sl.
  replace (Qltb l_upper (SLBoundary.start_l obstacle_sl)
           || Qltb (SLBoundary.end_l obstacle_sl) l_lower) with true;
    [ reflexivity | ].
  symmetry. apply orb_true_iff. rewrite !Qltb_true. exact Hout.
Qed.

Lemma obstacle_outside_lateral_range_skipped_witness :
  let v := [(-3, 3); (-1, 2)] in
  shrink Scene.narrow_buffer Scene.adc 1 Scene.narrowing 0 2 v
    (Scene.static 0 1.5 3.5 4)
  = Returns v [].
Proof.
  intro v.
  apply (obstacle_outside_lateral_range_skipped Scene.narrow_buffer Scene.adc 1
           Scene.narrowing 0 2 v (Scene.static 0 1.5 3.5 4) 0 2 (-3) 3);
    try reflexivity; try discriminate.
  left. reflexivity.
Defined.

(** X9. An obstacle that the loop body processes, that ends before the
    vehicle's front and lies left of the vehicle ([start_l] above the
    vehicle's [end_l]) lowers or raises the upper bound of every station
    of its range to its [start_l]; each station keeps its own lower bound,
    the stations outside the range stay, and nothing is queried. *)
Theorem parallel_obstacle_on_left
        (config_ : QpPiecewiseJerkPathConfig.t) (adc_sl : SLBoundary.t)
        (qp_delta_s : Q) (reference_line : ReferenceLine.t)
        (start_s accumulated_s : Q) (v : Bounds) (o : PathObstacle.t)
        (start_iter end_iter : nat) (l_lower l_upper : Q) :
  let obstacle_sl := PathObstacle.PerceptionSLBoundary o in
  processes qp_delta_s start_s accumulated_s v o start_iter end_iter
    l_lower l_upper ->
  SLBoundary.end_s obstacle_sl < SLBoundary.end_s adc_sl ->
  SLBoundary.end_l adc_sl < SLBoundary.start_l obstacle_sl ->
  exists v',
    shrink config_ adc_sl qp_delta_s reference_line start_s accumulated_s v o
    = Returns v' []
    /\ length v' = length v
    /\ (forall i p,
          (start_iter <= i < end_iter)%nat -> nth_error v i = Some p ->
          nth_error v' i = Some (fst p, SLBoundary.start_l obstacle_sl))
    /\ same_outside v v' start_iter end_iter.
Proof.
  intros obstacle_sl Hp Hpar Hleft.
  pose proof (processed_valid _ _ _ _ _ _ _ _ _ Hp) as Hr.
  eexists. split; [ | split; [ | split ] ].
  - exact (parallel_left config_ adc_sl qp_delta_s reference_line start_s
             accumulated_s v o start_iter end_iter l_lower l_upper
             Hp Hpar Hleft).
  - apply length_assign_second_loop.
  - intros i p Hi Hpi. rewrite nth_error_assign_second_loop, Hpi.
    replace ((start_iter <=? i) && (i <? start_iter + (end_iter - start_iter)))%nat
      with true by (symmetry; apply in_range_test; lia).
    reflexivity.
  - intros i Hi. rewrite nth_error_assign_second_loop.
    destruct ((start_iter <=? i) && (i <? start_iter + (end_iter - start_iter)))%nat
      eqn:E; [ | reflexivity ].
    apply in_range_test in E; [ contradiction | lia ].
Qed.

Lemma parallel_obstacle_on_left_witness :
  let v := [(-3, 3); (-1, 2); (-1, 2)] in
  let o := Scene.static 0 0.5 1.5 3 in
  exists v',
    shrink Scene.narrow_buffer Scene.adc 1 Scene.narrowing 0 3 v o
    = Returns v' []
    /\ length v' = length v
    /\ (forall i p,
          (0 <= i < 1)%nat -> nth_error v i = Some p ->
          nth_error v' i = Some (fst p, 1.5))
    /\ same_outside v v' 0 1.
Proof.
  intros v o.
  apply (parallel_obstacle_on_left Scene.narrow_buffer Scene.adc 1
           Scene.narrowing 0 3 v o 0 1 (-3) 3).
  - constructor; try reflexivity; discriminate.
  - reflexivity.
  - reflexivity.
Defined.

(** X10. An obstacle that the loop body processes, that ends before the
    vehicle's front and does not lie left of the vehicle, moves the lower
    bound of every station of its range to its [end_l]; each station keeps
    its own upper bound and the stations outside the range stay.  Nothing
    guards the other side: a station of the range whose upper bound is
    below [end_l] is left with its lower bound above its upper bound. *)
Theorem parallel_obstacle_not_on_left
        (config_ : QpPiecewiseJerkPathConfig.t) (adc_sl : SLBoundary.t)
        (qp_delta_s : Q) (reference_line : ReferenceLine.t)
        (start_s accumulated_s : Q) (v : Bounds) (o : PathObstacle.t)
        (start_iter end_iter : nat) (l_lower l_upper : Q) :
  let obstacle_sl := PathObstacle.PerceptionSLBoundary o in
  processes qp_delta_s start_s accumulated_s v o start_iter end_iter
    l_lower l_upper ->
  SLBoundary.end_s obstacle_sl < SLBoundary.end_s adc_sl ->
  ~ SLBoundary.end_l adc_sl < SLBoundary.start_l obstacle_sl ->
  exists v',
    shrink config_ adc_sl qp_delta_s reference_line start_s accumulated_s v o
    = Returns v' []
    /\ length v' = length v
    /\ (forall i p,
          (start_iter <= i < end_iter)%nat -> nth_error v i = Some p ->
          nth_error v' i = Some (SLBoundary.end_l obstacle_sl, snd p))
    /\ same_outside v v' start_iter end_iter
    /\ (forall i p,
          (start_iter <= i < end_iter)%nat -> nth_error v i = Some p ->
          snd p < SLBoundary.end_l obstacle_sl ->
          exists p', nth_error v' i = Some p' /\ snd p' < fst p').
Proof.
  intros obstacle_sl Hp Hpar Hleft.
  pose proof (processed_valid _ _ _ _ _ _ _ _ _ Hp) as Hr.
  assert (Hin : forall i p,
             (start_iter <= i < end_iter)%nat -> nth_error v i = Some p ->
             nth_error
               (assign_first_loop v start_iter (end_iter - start_iter)
                  (SLBoundary.end_l obstacle_sl)) i
             = Some (SLBoundary.end_l obstacle_sl, snd p)).
  { intros i p Hi Hpi. rewrite nth_error_assign_first_loop, Hpi.
    replace ((start_iter <=? i) && (i <? start_iter + (end_iter - start_iter)))%nat
      with true by (symmetry; apply in_range_test; lia).
    reflexivity. }
  eexists. split; [ | split; [ | split; [ | split ] ] ].
  - exact (parallel_right config_ adc_sl qp_delta_s reference_line start_s
             accumulated_s v o start_iter end_iter l_lower l_upper
             Hp Hpar Hleft).
  - apply length_assign_first_loop.
  - exact Hin.
  - intros i Hi. rewrite nth_error_assign_first_loop.
    destruct ((start_iter <=? i) && (i <? start_iter + (end_iter - start_iter)))%nat
      eqn:E; [ | reflexivity ].
    apply in_range_test in E; [ contradiction | lia ].
  - intros i p Hi Hpi Hlow. eexists. split; [ exact (Hin i p Hi Hpi) | exact Hlow ].
Qed.

Lemma parallel_obstacle_not_on_left_witness :
  let v := [(-3, 3); (-3, 3)] in
  let o := Scene.static 0 0.5 0 4 in
  exists v',
    shrink Scene.narrow_buffer Scene.adc 1 Scene.straight 0 2 v o
    = Returns v' []
    /\ length v' = length v
    /\ (forall i p,
          (0 <= i < 1)%nat -> nth_error v i = Some p ->
          nth_error v' i = Some (4, snd p))
    /\ same_outside v v' 0 1
    /\ (forall i p,
          (0 <= i < 1)%nat -> nth_error v i = Some p ->
          snd p < 4 ->
          exists p', nth_error v' i = Some p' /\ snd p' < fst p').
Proof.
  intros v o.
  apply (parallel_obstacle_not_on_left Scene.narrow_buffer Scene.adc 1
           Scene.straight 0 2 v o 0 1 (-3) 3).
  - constructor; try reflexivity; discriminate.
  - reflexivity.
  - discriminate.
Defined.

(** X11. A general obstacle with room on neither side that is not on the
    reference line ([start_l * end_l] not negative) is bypassed: the road
    width is asked for once, at its [start_s]; when its [start_l] is not
    negative every station of its range gets
    [(std::max(start_l - buffered_adc_width, - road_right), start_l)], and
    otherwise [(end_l, std::min(end_l + buffered_adc_width, road_left))];
    the stations outside the range stay. *)
Theorem blocking_obstacle_bypassed
        (config_ : QpPiecewiseJerkPathConfig.t) (adc_sl : SLBoundary.t)
        (qp_delta_s : Q) (reference_line : ReferenceLine.t)
        (start_s accumulated_s : Q) (v : Bounds) (o : PathObstacle.t)
        (start_iter end_iter : nat) (l_lower l_upper : Q) :
  let obstacle_sl := PathObstacle.PerceptionSLBoundary o in
  let buffered := buffered_adc_width config_ adc_sl in
  let road :=
    ReferenceLine.road_width reference_line (SLBoundary.start_s obstacle_sl) in
  processes qp_delta_s start_s accumulated_s v o start_iter end_iter
    l_lower l_upper ->
  ~ SLBoundary.end_s obstacle_sl < SLBoundary.end_s adc_sl ->
  ~ buffered < l_upper - SLBoundary.end_l obstacle_sl ->
  ~ buffered < SLBoundary.start_l obstacle_sl - l_lower ->
  ~ SLBoundary.start_l obstacle_sl * SLBoundary.end_l obstacle_sl < 0 ->
  exists v',
    shrink config_ adc_sl qp_delta_s reference_line start_s accumulated_s v o
    = Returns v' [RoadWidthQuery (SLBoundary.start_s obstacle_sl)]
    /\ same_outside v v' start_iter end_iter
    /\ (0 <= SLBoundary.start_l obstacle_sl ->
        all_in_range v' start_iter end_iter
          (Std.max (SLBoundary.start_l obstacle_sl - buffered) (- snd road),
           SLBoundary.start_l obstacle_sl))
    /\ (SLBoundary.start_l obstacle_sl < 0 ->
        all_in_range v' start_iter end_iter
          (SLBoundary.end_l obstacle_sl,
           Std.min (SLBoundary.end_l obstacle_sl + buffered) (fst road))).
Proof.
  intros obstacle_sl buffered road Hp Hgen Hleft Hright Hoff.
  destruct (blocked_beside_reference_line config_ adc_sl qp_delta_s
              reference_line start_s accumulated_s v o start_iter end_iter
              l_lower l_upper Hp Hgen Hleft Hright Hoff)
    as (v' & Hv' & _ & Hin & Hout).
  exists v'. split; [ exact Hv' | ]. split; [ exact Hout | ].
  fold obstacle_sl in Hin. split; intro Hs.
  - apply Qle_bool_iff in Hs. now rewrite Hs in Hin.
  - replace (Qle_bool 0 (SLBoundary.start_l obstacle_sl)) with false in Hin;
      [ exact Hin | ].
    symmetry. destruct (Qle_bool 0 (SLBoundary.start_l obstacle_sl)) eqn:E;
      [ | reflexivity ].
    apply Qle_bool_iff in E. exfalso. exact (Qle_not_lt _ _ E Hs).
Qed.

Lemma blocking_obstacle_bypassed_witness :
  let v := [(-3, 3); (-3, 3)] in
  let o := Scene.static 0 1.5 0 0.5 in
  exists v',
    shrink Scene.wide_buffer Scene.adc 1 Scene.straight 0 2 v o
    = Returns v' [RoadWidthQuery 0]
    /\ same_outside v v' 0 2
    /\ (0 <= 0 ->
        all_in_range v' 0 2
          (Std.max (0 - buffered_adc_width Scene.wide_buffer Scene.adc) (- (5)),
           0))
    /\ (0 < 0 ->
        all_in_range v' 0 2
          (0.5,
           Std.min (0.5 + buffered_adc_width Scene.wide_buffer Scene.adc) 5)).
Proof.
  intros v o.
  apply (blocking_obstacle_bypassed Scene.wide_buffer Scene.adc 1
           Scene.straight 0 2 v o 0 2 (-3) 3).
  - constructor; try reflexivity; discriminate.
  - discriminate.
  - discriminate.
  - discriminate.
  - discriminate.
Defined.

(** X12. A general obstacle with room on neither side that is on the
    reference line leaves the corridor as it was when the bounds of its
    range are all the same: the two values assigned over the range are
    then the bounds that the range had. *)
Theorem blocking_obstacle_on_reference_line_uniform
        (config_ : QpPiecewiseJerkPathConfig.t) (adc_sl : SLBoundary.t)
        (qp_delta_s : Q) (reference_line : ReferenceLine.t)
        (start_s accumulated_s : Q) (v : Bounds) (o : PathObstacle.t)
        (start_iter end_iter : nat) (l_lower l_upper : Q) (b : Q * Q) :
  let obstacle_sl := PathObstacle.PerceptionSLBoundary o in
  let buffered := buffered_adc_width config_ adc_sl in
  processes qp_delta_s start_s accumulated_s v o start_iter end_iter
    l_lower l_upper ->
  (start_iter < end_iter)%nat ->
  all_in_range v start_iter end_iter b ->
  ~ SLBoundary.end_s obstacle_sl < SLBoundary.end_s adc_sl ->
  ~ buffered < l_upper - SLBoundary.end_l obstacle_sl ->
  ~ buffered < SLBoundary.start_l obstacle_sl - l_lower ->
  SLBoundary.start_l obstacle_sl * SLBoundary.end_l obstacle_sl < 0 ->
  shrink config_ adc_sl qp_delta_s reference_line start_s accumulated_s v o
  = Returns v [].
Proof.
  intros obstacle_sl buffered Hp Hne Hall Hgen Hleft Hright Hon.
  pose proof (processed_valid _ _ _ _ _ _ _ _ _ Hp) as Hr.
  destruct (blocked_on_reference_line config_ adc_sl qp_delta_s reference_line
              start_s accumulated_s v o start_iter end_iter l_lower l_upper
              Hp Hgen Hleft Hright Hon) as (v' & Hv' & Hlen & Hin & Hout).
  rewrite Hv'. f_equal. apply nth_error_ext. intro i.
  destruct (le_lt_dec start_iter i) as [Hi1 | Hi1];
    [ destruct (le_lt_dec end_iter i) as [Hi2 | Hi2] | ].
  - apply Hout. lia.
  - rewrite (Hin i) by lia. rewrite (Hall i) by lia.
    pose proof (lower_read _ _ _ _ _ _ _ _ _ Hp) as Hlo.
    pose proof (upper_read _ _ _ _ _ _ _ _ _ Hp) as Hup.
    rewrite (l_lower_in_uniform v start_iter end_iter b) in Hlo
      by (try assumption; lia).
    rewrite (l_upper_in_uniform v start_iter end_iter b) in Hup
      by (try assumption; lia).
    injection Hlo as <-. injection Hup as <-. now destruct b.
  - apply Hout. lia.
Qed.

Lemma blocking_obstacle_on_reference_line_uniform_witness :
  let v := [(-3, 3); (-3, 3)] in
  shrink Scene.wide_buffer Scene.adc 1 Scene.straight 0 2 v
    (Scene.static 0 1.5 (-0.5) 0.5)
  = Returns v [].
Proof.
  intro v.
  apply (blocking_obstacle_on_reference_line_uniform Scene.wide_buffer
           Scene.adc 1 Scene.straight 0 2 v (Scene.static 0 1.5 (-0.5) 0.5)
           0 2 (-3) 3 (-3, 3)).
  - constructor; try reflexivity; discriminate.
  - lia.
  - intros i Hi. destruct i as [ | [ | i ] ]; try lia; reflexivity.
  - discriminate.
  - discriminate.
  - discriminate.
  - reflexivity.
Defined.

(** ** What the loop keeps *)

Section ShrinkKeeps.

Variable config_ : QpPiecewiseJerkPathConfig.t.
Variable adc_sl : SLBoundary.t.
Variable qp_delta_s : Q.
Variable reference_line : ReferenceLine.t.
Variable start_s accumulated_s : Q.

Local Abbreviation body :=
  (shrink config_ adc_sl qp_delta_s reference_line start_s accumulated_s).

(** Past its tests, the loop body returns, and changes bounds over the
    range only. *)
Lemma handle_obstacle_returns (v : Bounds) (obstacle_sl : SLBoundary.t)
      (start_iter end_iter : nat) (l_lower l_upper : Q) :
  (start_iter <= end_iter <= length v)%nat ->
  exists v' q,
    handle_obstacle config_ adc_sl reference_line v obstacle_sl
      start_iter end_iter l_lower l_upper
    = Returns v' q
    /\ length v' = length v
    /\ same_outside v v' start_iter end_iter.
Proof.
  intro Hr. pose proof Hr as Hv. apply valid_range_bounds in Hv.
  assert (Hboth : forall lower upper q0,
             exists v' q,
               match
                 (v1 <- defined (assign_pair_first v start_iter end_iter lower) ;;
                  defined (assign_pair_second v1 start_iter end_iter upper))
               with
               | Returns b q2 => Returns b (q0 ++ q2)
               | Undefined => Undefined
               | Aborted => Aborted
               end = Returns v' q
               /\ length v' = length v
               /\ same_outside v v' start_iter end_iter).
  { intros lower upper q0.
    destruct (assign_both v start_iter end_iter lower upper Hv)
      as (v' & Hv' & Hlen & _ & Hout).
    exists v', (q0 ++ []). now rewrite Hv'. }
  unfold handle_obstacle.
  destruct (Qltb (SLBoundary.end_s obstacle_sl) (SLBoundary.end_s adc_sl)).
  - destruct (Qltb (SLBoundary.end_l adc_sl) (SLBoundary.start_l obstacle_sl)).
    + unfold assign_pair_second. rewrite Hv. eexists. eexists.
      split; [ reflexivity | ]. split; [ apply length_assign_second_loop | ].
      intros i Hi. rewrite nth_error_assign_second_loop.
      destruct ((start_iter <=? i) && (i <? start_iter + (end_iter - start_iter)))%nat
        eqn:E; [ | reflexivity ].
      apply in_range_test in E; [ contradiction | lia ].
    + unfold assign_pair_first. rewrite Hv. eexists. eexists.
      split; [ reflexivity | ]. split; [ apply length_assign_first_loop | ].
      intros i Hi. rewrite nth_error_assign_first_loop.
      destruct ((start_iter <=? i) && (i <? start_iter + (end_iter - start_iter)))%nat
        eqn:E; [ | reflexivity ].
      apply in_range_test in E; [ contradiction | lia ].
  - destruct (Qltb (buffered_adc_width config_ adc_sl)
                (l_upper - SLBoundary.end_l obstacle_sl));
      [ cbn [bind ret]; apply Hboth | ].
    destruct (Qltb (buffered_adc_width config_ adc_sl)
                (- l_lower + SLBoundary.start_l obstacle_sl));
      [ cbn [bind ret]; apply Hboth | ].
    destruct (Qltb (SLBoundary.start_l obstacle_sl
                    * SLBoundary.end_l obstacle_sl) 0);
      [ cbn [bind ret]; apply Hboth | ].
    unfold ReferenceLine.GetRoadWidth.
    destruct (Qle_bool 0 (SLBoundary.start_l obstacle_sl));
      cbn [bind ret]; apply Hboth.
Qed.

(** The loop body either skips the obstacle or processes it. *)
Lemma shrink_cases (v v' : Bounds) (o : PathObstacle.t) (q : list Query) :
  body v o = Returns v' q ->
  (v' = v /\ q = [])
  \/ exists start_iter end_iter l_lower l_upper,
       processes qp_delta_s start_s accumulated_s v o start_iter end_iter
         l_lower l_upper
       /\ handle_obstacle config_ adc_sl reference_line v
            (PathObstacle.PerceptionSLBoundary o) start_iter end_iter
            l_lower l_upper
          = Returns v' q.
Proof.
  intro H. unfold shrink in H.
  destruct (Obstacle.IsStatic (PathObstacle.obstacle o)) eqn:Hst;
    cbn [negb] in H; [ | left; injection H as <- <-; auto ].
  destruct (Qltb (SLBoundary.end_s (PathObstacle.PerceptionSLBoundary o)) start_s)
    eqn:Hb; cbn [orb] in H; [ left; injection H as <- <-; auto | ].
  destruct (Qltb accumulated_s
              (SLBoundary.start_s (PathObstacle.PerceptionSLBoundary o)))
    eqn:Hy; [ left; injection H as <- <-; auto | ].
  destruct (find_s_iter qp_delta_s start_s v
              (SLBoundary.start_s (PathObstacle.PerceptionSLBoundary o)))
    as [ a | ] eqn:Ha; cbn [defined] in H; [ | discriminate ].
  rewrite bind_ret_l in H.
  destruct (find_s_iter qp_delta_s start_s v
              (SLBoundary.end_s (PathObstacle.PerceptionSLBoundary o)))
    as [ e | ] eqn:He; cbn [defined option_map] in H; [ | discriminate ].
  rewrite bind_ret_l in H.
  destruct (max_pair_second v a (S e)) as [ i | ] eqn:Hi;
    cbn [defined] in H; [ | discriminate ].
  rewrite bind_ret_l in H.
  destruct (deref v i) as [ p | ] eqn:Hp; cbn [defined] in H; [ | discriminate ].
  rewrite bind_ret_l in H.
  destruct (min_pair_first v a (S e)) as [ j | ] eqn:Hj;
    cbn [defined] in H; [ | discriminate ].
  rewrite bind_ret_l in H.
  destruct (deref v j) as [ p' | ] eqn:Hp'; cbn [defined] in H; [ | discriminate ].
  rewrite bind_ret_l in H.
  destruct (Qltb (snd p')
              (SLBoundary.start_l (PathObstacle.PerceptionSLBoundary o)))
    eqn:Hl; cbn [orb] in H; [ left; injection H as <- <-; auto | ].
  destruct (Qltb (SLBoundary.end_l (PathObstacle.PerceptionSLBoundary o)) (fst p))
    eqn:Hr; [ left; injection H as <- <-; auto | ].
  right. exists a, (S e), (fst p), (snd p'). split; [ | exact H ].
  apply Qltb_false in Hb, Hy, Hl, Hr.
  constructor.
  - exact Hst.
  - now apply Qle_not_lt.
  - now apply Qle_not_lt.
  - exact Ha.
  - now rewrite He.
  - unfold l_lower_in. now rewrite Hi, Hp.
  - unfold l_upper_in. now rewrite Hj, Hp'.
  - now apply Qle_not_lt.
  - now apply Qle_not_lt.
Qed.

Lemma shrink_length (v v' : Bounds) (o : PathObstacle.t) (q : list Query) :
  body v o = Returns v' q -> length v' = length v.
Proof.
  intro H. destruct (shrink_cases v v' o q H)
    as [ [-> _] | (a & b & lo & up & Hp & Hh) ]; [ reflexivity | ].
  destruct (handle_obstacle_returns v (PathObstacle.PerceptionSLBoundary o)
              a b lo up (processed_valid _ _ _ _ _ _ _ _ _ Hp))
    as (v1 & q1 & Hv1 & Hlen & _).
  rewrite Hh in Hv1. now injection Hv1 as -> _.
Qed.

Lemma shrink_all_length (obstacles : list PathObstacle.t) (v v' : Bounds)
      (q : list Query) :
  shrink_all config_ adc_sl qp_delta_s reference_line start_s accumulated_s
    v obstacles
  = Returns v' q ->
  length v' = length v.
Proof.
  revert v q. induction obstacles as [ | o rest IH ]; intros v q H; simpl in H.
  - now injection H as <- _.
  - apply bind_returns in H. destruct H as (v1 & q1 & q2 & H1 & H2 & _).
    rewrite (IH _ _ H2). exact (shrink_length _ _ _ _ H1).
Qed.

End ShrinkKeeps.

(** X13. Whatever the obstacle, when the loop body returns it has kept the
    length of the vector and has changed bounds only at stations from the
    index of the obstacle's [start_s] to the index of its [end_s]. *)
Theorem obstacle_changes_its_range_only
        (config_ : QpPiecewiseJerkPathConfig.t) (adc_sl : SLBoundary.t)
        (qp_delta_s : Q) (reference_line : ReferenceLine.t)
        (start_s accumulated_s : Q) (v v' : Bounds) (o : PathObstacle.t)
        (q : list Query) :
  let obstacle_sl := PathObstacle.PerceptionSLBoundary o in
  shrink config_ adc_sl qp_delta_s reference_line start_s accumulated_s v o
  = Returns v' q ->
  length v' = length v
  /\ forall i,
       nth_error v' i <> nth_error v i ->
       exists start_iter last,
         find_s_iter qp_delta_s start_s v (SLBoundary.start_s obstacle_sl)
         = Some start_iter
         /\ find_s_iter qp_delta_s start_s v (SLBoundary.end_s obstacle_sl)
            = Some last
         /\ (start_iter <= i <= last)%nat.
Proof.
  intros obstacle_sl H. split.
  - exact (shrink_length _ _ _ _ _ _ _ _ _ _ H).
  - intros i Hi.
    destruct (shrink_cases _ _ _ _ _ _ _ _ _ _ H)
      as [ [-> _] | (a & b & lo & up & Hp & Hh) ]; [ contradiction | ].
    destruct (handle_obstacle_returns config_ adc_sl reference_line v
                obstacle_sl a b lo up (processed_valid _ _ _ _ _ _ _ _ _ Hp))
      as (v1 & q1 & Hv1 & _ & Hout).
    fold obstacle_sl in Hh. rewrite Hh in Hv1. injection Hv1 as <- _.
    pose proof (start_found _ _ _ _ _ _ _ _ _ Hp) as Ha.
    pose proof (end_found _ _ _ _ _ _ _ _ _ Hp) as Hb.
    fold obstacle_sl in Ha, Hb.
    destruct (find_s_iter qp_delta_s start_s v (SLBoundary.end_s obstacle_sl))
      as [ e | ]; [ | discriminate ].
    injection Hb as <-. exists a, e. split; [ exact Ha | ].
    split; [ reflexivity | ].
    destruct (le_lt_dec a i) as [Hi1 | Hi1];
      [ destruct (le_lt_dec (S e) i) as [Hi2 | Hi2] | ];
      try lia; exfalso; apply Hi; apply Hout; lia.
Qed.

Lemma obstacle_changes_its_range_only_witness :
  let v := repeat (-3, 3) 5%nat in
  let v' := [(-3, 3); (-3, 3); (-3, 0.5); (-3, 0.5); (-3, 3)] in
  length v' = length v
  /\ forall i,
       nth_error v' i <> nth_error v i ->
       exists start_iter last,
         find_s_iter 1 0 v 2 = Some start_iter
         /\ find_s_iter 1 0 v 3 = Some last
         /\ (start_iter <= i <= last)%nat.
Proof.
  intros v v'.
  apply (obstacle_changes_its_range_only Scene.narrow_buffer Scene.adc 1
           Scene.straight 0 5 v v' (Scene.static 2 3 0.5 1.5) []).
  reflexivity.
Defined.

(** * Further properties of [GetLateralBounds] *)

(** X14. Whenever [GetLateralBounds] returns, the step is not zero and the
    corridor has [std::max(2, n)] stations, [n] being the quotient
    [path_length / qp_delta_s] truncated to an [int]: at least two, however
    short the path and whatever the obstacles. *)
Theorem corridor_length
        (config_ : QpPiecewiseJerkPathConfig.t) (info : ReferenceLineInfo.t)
        (adc_sl : SLBoundary.t) (frenet_point : FrenetFramePoint.t)
        (qp_delta_s path_length : Q) (reference_line : ReferenceLine.t)
        (obstacles : list PathObstacle.t) (v : Bounds) (q : list Query) :
  GetLateralBounds config_ info adc_sl frenet_point qp_delta_s path_length
    reference_line obstacles
  = Returns v q ->
  exists n,
    ~ qp_delta_s == 0
    /\ static_cast_int (path_length / qp_delta_s) = Some n
    /\ length v = Z.to_nat (Z.max 2 n)
    /\ (2 <= length v)%nat.
Proof.
  intro H. unfold GetLateralBounds in H.
  apply bind_returns in H. destruct H as (size & q1 & q2 & Hsize & H & _).
  unfold bounds_size, fdiv in Hsize.
  destruct (Qeq_bool qp_delta_s 0) eqn:Hd; [ discriminate | ].
  apply Qeq_bool_neq in Hd.
  destruct (static_cast_int (path_length / qp_delta_s)) as [ n | ];
    [ | discriminate ].
  cbn [defined ret] in Hsize. injection Hsize as <- _.
  apply bind_returns in H. destruct H as ([bs acc] & q3 & q4 & He & Hs & _).
  apply shrink_all_length in Hs.
  destruct (expand_returns adc_sl qp_delta_s reference_line
              (repeat (0, 0) (Z.to_nat (Std.maxz 2 n)))
              (FrenetFramePoint.s frenet_point)) as (bs' & q' & He' & Hlen & _).
  rewrite He in He'. injection He' as -> _ _.
  rewrite repeat_length in Hlen.
  assert (Hmax : Std.maxz 2 n = Z.max 2 n).
  { unfold Std.maxz. destruct (Z.ltb_spec 2 n); lia. }
  exists n. repeat split; try assumption; lia.
Qed.

Lemma corridor_length_witness :
  let v := [(-3, 3); (-3, 0.5)] in
  exists n,
    ~ 1 == 0
    /\ static_cast_int (0 / 1) = Some n
    /\ length v = Z.to_nat (Z.max 2 n)
    /\ (2 <= length v)%nat.
Proof.
  intro v.
  apply (corridor_length Scene.narrow_buffer
           (Scene.info [Scene.static 1.5 3 0.5 1.5]) Scene.adc Scene.origin
           1 0 Scene.straight [] v (map LaneWidthQuery [0; 0 + 1])).
  reflexivity.
Defined.

Section Returns.

Variable config_ : QpPiecewiseJerkPathConfig.t.
Variable adc_sl : SLBoundary.t.
Variable qp_delta_s : Q.
Variable reference_line : ReferenceLine.t.
Variable start_s accumulated_s : Q.

Hypothesis positive_step : 0 < qp_delta_s.

(** The loop body returns on an obstacle whose quotients, as [find_s_iter]
    converts them, are above [-1] at its [start_s] and below [2 ^ 64] at
    its [end_s], and that does not end before it starts. *)
Lemma shrink_returns (v : Bounds) (o : PathObstacle.t) :
  (0 < length v)%nat ->
  (Obstacle.IsStatic (PathObstacle.obstacle o) = true ->
   ~ SLBoundary.end_s (PathObstacle.PerceptionSLBoundary o) < start_s ->
   ~ accumulated_s < SLBoundary.start_s (PathObstacle.PerceptionSLBoundary o) ->
   - (1)
   < (SLBoundary.start_s (PathObstacle.PerceptionSLBoundary o) - start_s)
     / qp_delta_s
   /\ SLBoundary.start_s (PathObstacle.PerceptionSLBoundary o)
      <= SLBoundary.end_s (PathObstacle.PerceptionSLBoundary o)
   /\ (SLBoundary.end_s (PathObstacle.PerceptionSLBoundary o) - start_s)
      / qp_delta_s
      < inject_Z (2 ^ 64)) ->
  exists v' q,
    shrink config_ adc_sl qp_delta_s reference_line start_s accumulated_s v o
    = Returns v' q.
Proof.
  intros Hv Hcond.
  assert (Hne : ~ qp_delta_s == 0).
  { intro E. rewrite E in positive_step. discriminate. }
  destruct (Obstacle.IsStatic (PathObstacle.obstacle o)) eqn:Hst;
    [ | exists v, []; now apply shrink_not_static ].
  destruct (Qlt_le_dec (SLBoundary.end_s (PathObstacle.PerceptionSLBoundary o))
              start_s) as [Hb | Hb];
    [ exists v, []; now apply shrink_behind | ].
  destruct (Qlt_le_dec accumulated_s
              (SLBoundary.start_s (PathObstacle.PerceptionSLBoundary o)))
    as [Hy | Hy];
    [ exists v, []; now apply shrink_beyond | ].
  apply Qle_not_lt in Hb, Hy.
  destruct (Hcond eq_refl Hb Hy) as (Hlo & Hse & Hhi).
  pose proof (quotient_le qp_delta_s start_s _ _ positive_step Hse) as Hq.
  destruct (find_s_iter_defined qp_delta_s start_s v
              (SLBoundary.start_s (PathObstacle.PerceptionSLBoundary o))
              Hne Hv Hlo (Qle_lt_trans _ _ _ Hq Hhi)) as [a Ha].
  destruct (find_s_iter_defined qp_delta_s start_s v
              (SLBoundary.end_s (PathObstacle.PerceptionSLBoundary o))
              Hne Hv (Qlt_le_trans _ _ _ Hlo Hq) Hhi) as [e He].
  pose proof (find_s_iter_le _ _ _ _ _ _ _ positive_step Hse Ha He) as Hae.
  pose proof (find_s_iter_some _ _ _ _ _ He) as (_ & _ & Hlt & _).
  assert (Hr : (a < S e <= length v)%nat) by lia.
  destruct (l_lower_in_defined v a (S e) Hr) as (_ & p & _ & _ & _ & Hlower).
  destruct (l_upper_in_defined v a (S e) Hr) as (_ & p' & _ & _ & _ & Hupper).
  rewrite (shrink_reads config_ adc_sl qp_delta_s reference_line start_s
             accumulated_s v o a (S e) (fst p) (snd p') Hst Hb Hy Ha)
    by (try assumption; now rewrite He).
  destruct (Qltb (snd p')
              (SLBoundary.start_l (PathObstacle.PerceptionSLBoundary o))
            || Qltb (SLBoundary.end_l (PathObstacle.PerceptionSLBoundary o))
                 (fst p)).
  - exists v, []. reflexivity.
  - destruct (handle_obstacle_returns config_ adc_sl reference_line v
                (PathObstacle.PerceptionSLBoundary o) a (S e) (fst p) (snd p'))
      as (v' & q & Hv' & _); [ lia | ].
    now exists v', q.
Qed.

Lemma shrink_all_returns (obstacles : list PathObstacle.t) (v : Bounds) :
  (0 < length v)%nat ->
  (forall o,
      In o obstacles ->
      Obstacle.IsStatic (PathObstacle.obstacle o) = true ->
      ~ SLBoundary.end_s (PathObstacle.PerceptionSLBoundary o) < start_s ->
      ~ accumulated_s < SLBoundary.start_s (PathObstacle.PerceptionSLBoundary o) ->
      - (1)
      < (SLBoundary.start_s (PathObstacle.PerceptionSLBoundary o) - start_s)
        / qp_delta_s
      /\ SLBoundary.start_s (PathObstacle.PerceptionSLBoundary o)
         <= SLBoundary.end_s (PathObstacle.PerceptionSLBoundary o)
      /\ (SLBoundary.end_s (PathObstacle.PerceptionSLBoundary o) - start_s)
         / qp_delta_s
         < inject_Z (2 ^ 64)) ->
  exists v' q,
    shrink_all config_ adc_sl qp_delta_s reference_line start_s accumulated_s
      v obstacles
    = Returns v' q.
Proof.
  revert v. induction obstacles as [ | o rest IH ]; intros v Hv Hcond.
  - exists v, []. reflexivity.
  - destruct (shrink_returns v o Hv (Hcond o (or_introl eq_refl)))
      as (v1 & q1 & H1).
    destruct (IH v1) as (v2 & q2 & H2).
    + rewrite (shrink_length _ _ _ _ _ _ _ _ _ _ H1). exact Hv.
    + intros o' Ho'. apply Hcond. now right.
    + exists v2, (q1 ++ q2). cbn [shrink_all]. rewrite H1. cbn [bind].
      now rewrite H2.
Qed.

End Returns.

Lemma participates_true (start_s horizon_end : Q) (o : PathObstacle.t) :
  participates start_s horizon_end o = true <->
  Obstacle.IsStatic (PathObstacle.obstacle o) = true
  /\ ~ SLBoundary.end_s (PathObstacle.PerceptionSLBoundary o) < start_s
  /\ ~ horizon_end < SLBoundary.start_s (PathObstacle.PerceptionSLBoundary o).
Proof.
  unfold participates.
  rewrite !andb_true_iff, !negb_true_iff, !Qltb_false. split.
  - intros [[Hs Hb] Hy]. repeat split; try assumption; now apply Qle_not_lt.
  - intros (Hs & Hb & Hy). repeat split; try assumption; now apply Qnot_lt_le.
Qed.

(** X15. [GetLateralBounds] returns a corridor, with no undefined step,
    when the step is positive, the number of stations fits an [int], and
    every obstacle that passes the tests of the loop (static, not ending
    before [start_s], not starting after [accumulated_s] as the first loop
    leaves it) does not end before it starts and has its two quotients, as
    [find_s_iter] converts them, above [-1] at its [start_s] and below
    [2 ^ 64] at its [end_s]. *)
Theorem GetLateralBounds_returns
        (config_ : QpPiecewiseJerkPathConfig.t) (info : ReferenceLineInfo.t)
        (adc_sl : SLBoundary.t) (frenet_point : FrenetFramePoint.t)
        (qp_delta_s path_length : Q) (reference_line : ReferenceLine.t)
        (obstacles : list PathObstacle.t) (size : Z) :
  let N := Z.to_nat size in
  let start_s := FrenetFramePoint.s frenet_point in
  let accumulated_s := station start_s qp_delta_s N in
  0 < qp_delta_s ->
  bounds_size qp_delta_s path_length = Some size ->
  (forall o,
      In o (ReferenceLineInfo.path_obstacles info) ->
      participates start_s accumulated_s o = true ->
      - (1)
      < (SLBoundary.start_s (PathObstacle.PerceptionSLBoundary o) - start_s)
        / qp_delta_s
      /\ SLBoundary.start_s (PathObstacle.PerceptionSLBoundary o)
         <= SLBoundary.end_s (PathObstacle.PerceptionSLBoundary o)
      /\ (SLBoundary.end_s (PathObstacle.PerceptionSLBoundary o) - start_s)
         / qp_delta_s
         < inject_Z (2 ^ 64)) ->
  exists v q,
    GetLateralBounds config_ info adc_sl frenet_point qp_delta_s path_length
      reference_line obstacles
    = Returns v q
    /\ length v = N.
Proof.
  intros N start_s accumulated_s Hd Hsize Hcond.
  destruct (expand_returns adc_sl qp_delta_s reference_line (repeat (0, 0) N)
              start_s) as (bs & q1 & He & Hlen & _).
  rewrite repeat_length in He, Hlen. fold accumulated_s in He.
  assert (HN : (0 < N)%nat).
  { unfold bounds_size in Hsize.
    destruct (fdiv path_length qp_delta_s); [ | discriminate ].
    destruct (static_cast_int q); [ | discriminate ].
    injection Hsize as <-. unfold N, Std.maxz. destruct (Z.ltb_spec 2 z); lia. }
  destruct (shrink_all_returns config_ adc_sl qp_delta_s reference_line start_s
              accumulated_s Hd
              (ReferenceLineInfo.path_obstacles info) bs) as (v & q2 & Hs).
  - lia.
  - intros o Ho Hst Hb Hy. apply (Hcond o Ho). apply participates_true.
    now repeat split.
  - exists v, (q1 ++ q2). split.
    + unfold GetLateralBounds. rewrite Hsize. cbn [defined]. rewrite bind_ret_l.
      fold N. fold start_s. rewrite He. cbn [bind]. now rewrite Hs.
    + rewrite (shrink_all_length _ _ _ _ _ _ _ _ _ _ Hs). exact Hlen.
Qed.

Lemma GetLateralBounds_returns_witness :
  exists v q,
    GetLateralBounds Scene.narrow_buffer
      (Scene.info [Scene.static (-0.5) 1.5 0.5 1.5; Scene.static (-9) (-4) 0 1])
      Scene.adc Scene.origin 1 2 Scene.straight []
    = Returns v q
    /\ length v = Z.to_nat 2.
Proof.
  apply (GetLateralBounds_returns Scene.narrow_buffer
           (Scene.info [Scene.static (-0.5) 1.5 0.5 1.5;
                        Scene.static (-9) (-4) 0 1])
           Scene.adc Scene.origin 1 2 Scene.straight [] 2).
  - reflexivity.
  - reflexivity.
  - intros o [ <- | [ <- | [] ] ] Hp.
    + repeat split; try reflexivity; discriminate.
    + discriminate Hp.
Defined.

(** ** The base corridor, further *)

Lemma expand_at_off_right (adc_sl : SLBoundary.t)
      (reference_line : ReferenceLine.t) (s : Q) :
  SLBoundary.end_l adc_sl <= fst (ReferenceLine.lane_width reference_line s) ->
  SLBoundary.start_l adc_sl < - snd (ReferenceLine.lane_width reference_line s) ->
  expand_at adc_sl reference_line s
  = Returns
      (Std.max (SLBoundary.start_l adc_sl)
         (- snd (ReferenceLine.road_width reference_line s)),
       fst (ReferenceLine.lane_width reference_line s))
      [LaneWidthQuery s; RoadWidthQuery s].
Proof.
  intros Hl Hr. apply Qltb_false in Hl. apply Qltb_true in Hr.
  unfold expand_at, ReferenceLine.GetLaneWidth, ReferenceLine.GetRoadWidth.
  cbn [bind]. rewrite Hl, Hr. reflexivity.
Qed.

(** X16. At every station [s_i] where the vehicle reaches right of the lane
    but not left of it, the bound of the base corridor is
    [std::max(start_l, - road_right)], the larger of the two, below and
    the left lane width above, and the road width is asked for at [s_i]. *)
Theorem base_bound_off_lane_right
        (adc_sl : SLBoundary.t) (qp_delta_s : Q)
        (reference_line : ReferenceLine.t) (N : nat) (start_s acc : Q)
        (bs : Bounds) (q : list Query) (i : nat) :
  let s_i := station start_s qp_delta_s i in
  let lane := ReferenceLine.lane_width reference_line s_i in
  let road := ReferenceLine.road_width reference_line s_i in
  expand adc_sl qp_delta_s reference_line (repeat (0, 0) N) start_s
  = Returns (bs, acc) q ->
  (i < N)%nat ->
  SLBoundary.end_l adc_sl <= fst lane ->
  SLBoundary.start_l adc_sl < - snd lane ->
  nth_error bs i
  = Some (Std.max (SLBoundary.start_l adc_sl) (- snd road), fst lane)
  /\ Std.max (SLBoundary.start_l adc_sl) (- snd road)
     == Qmax (SLBoundary.start_l adc_sl) (- snd road)
  /\ expand_at adc_sl reference_line s_i
     = Returns (Std.max (SLBoundary.start_l adc_sl) (- snd road), fst lane)
         [LaneWidthQuery s_i; RoadWidthQuery s_i].
Proof.
  intros s_i lane road He Hi Hl Hr.
  pose proof (expand_at_off_right adc_sl reference_line s_i Hl Hr) as Hat.
  split; [ | split ].
  - rewrite (expand_nth _ _ _ _ _ _ _ _ i He) by now rewrite repeat_length.
    fold s_i. now rewrite Hat.
  - apply std_max_is_Qmax.
  - exact Hat.
Qed.

Lemma base_bound_off_lane_right_witness :
  let adc_sl := SLBoundary.Build (-4) 1 (-3.5) (-2) in
  nth_error [(-3.5, 3); (-3.5, 3)] 1 = Some (Std.max (-3.5) (- (5)), 3)
  /\ Std.max (-3.5) (- (5)) == Qmax (-3.5) (- (5))
  /\ expand_at adc_sl Scene.straight (station 0 1 1)
     = Returns (Std.max (-3.5) (- (5)), 3)
         [LaneWidthQuery (station 0 1 1); RoadWidthQuery (station 0 1 1)].
Proof.
  intro adc_sl.
  apply (base_bound_off_lane_right adc_sl 1 Scene.straight 2 0 (0 + 1 + 1)
           [(-3.5, 3); (-3.5, 3)]
           (flat_map (fun s => [LaneWidthQuery s; RoadWidthQuery s])
              [0; 0 + 1])
           1).
  - reflexivity.
  - lia.
  - discriminate.
  - reflexivity.
Defined.

(** With the vehicle within the lane at every station, the first loop
    returns the lane widths and makes the lane queries only. *)
Lemma expand_inside (adc_sl : SLBoundary.t) (qp_delta_s : Q)
      (reference_line : ReferenceLine.t) (lateral_bounds : Bounds) (s : Q) :
  (forall i,
      (i < length lateral_bounds)%nat ->
      SLBoundary.end_l adc_sl
      <= fst (ReferenceLine.lane_width reference_line (station s qp_delta_s i))
      /\ - snd (ReferenceLine.lane_width reference_line
                  (station s qp_delta_s i))
         <= SLBoundary.start_l adc_sl) ->
  expand adc_sl qp_delta_s reference_line lateral_bounds s
  = Returns
      (map (fun i =>
              (- snd (ReferenceLine.lane_width reference_line
                        (station s qp_delta_s i)),
               fst (ReferenceLine.lane_width reference_line
                      (station s qp_delta_s i))))
         (seq 0 (length lateral_bounds)),
       station s qp_delta_s (length lateral_bounds))
      (map (fun i => LaneWidthQuery (station s qp_delta_s i))
         (seq 0 (length lateral_bounds))).
Proof.
  revert s. induction lateral_bounds as [ | p rest IH ]; intros s Hin.
  - reflexivity.
  - cbn [expand length]. destruct (Hin O) as [Hl Hr]; [ simpl; lia | ].
    cbn [station] in Hl, Hr.
    rewrite (expand_at_inside adc_sl reference_line s Hl Hr). cbn [bind].
    rewrite (IH (s + qp_delta_s)).
    + cbn [bind ret seq map station app]. rewrite app_nil_r.
      rewrite <- !seq_shift, !map_map. reflexivity.
    + intros i Hi. apply (Hin (S i)). simpl. lia.
Qed.

Lemma shrink_all_skips (config_ : QpPiecewiseJerkPathConfig.t)
      (adc_sl : SLBoundary.t) (qp_delta_s : Q) (reference_line : ReferenceLine.t)
      (start_s accumulated_s horizon_end : Q)
      (obstacles : list PathObstacle.t) (v : Bounds) :
  accumulated_s == horizon_end ->
  (forall o, In o obstacles -> participates start_s horizon_end o = false) ->
  shrink_all config_ adc_sl qp_delta_s reference_line start_s accumulated_s
    v obstacles
  = Returns v [].
Proof.
  intros Hacc. induction obstacles as [ | o rest IH ]; intro Hall.
  - reflexivity.
  - cbn [shrink_all].
    rewrite (shrink_skips _ _ _ _ _ _ horizon_end v o Hacc
               (Hall o (or_introl eq_refl))).
    change (Returns v []) with (ret v) at 1. rewrite bind_ret_l.
    apply IH. intros o' Ho'. apply Hall. now right.
Qed.

(** X17. When every obstacle of the list fails a test of the loop (it is
    moving, or ends before [start_s], or starts after [accumulated_s] as
    the first loop leaves it) and the vehicle is within the lane at every
    station, [GetLateralBounds] returns [(- lane_right, lane_left)] station
    by station, having asked for the lane width once per station, in
    order, and for nothing else. *)
Theorem lane_corridor_without_obstacles
        (config_ : QpPiecewiseJerkPathConfig.t) (info : ReferenceLineInfo.t)
        (adc_sl : SLBoundary.t) (frenet_point : FrenetFramePoint.t)
        (qp_delta_s path_length : Q) (reference_line : ReferenceLine.t)
        (obstacles : list PathObstacle.t) (size : Z) :
  let N := Z.to_nat size in
  let start_s := FrenetFramePoint.s frenet_point in
  let accumulated_s := station start_s qp_delta_s N in
  let lane i :=
    ReferenceLine.lane_width reference_line (station start_s qp_delta_s i) in
  bounds_size qp_delta_s path_length = Some size ->
  (forall o,
      In o (ReferenceLineInfo.path_obstacles info) ->
      participates start_s accumulated_s o = false) ->
  (forall i,
      (i < N)%nat ->
      SLBoundary.end_l adc_sl <= fst (lane i)
      /\ - snd (lane i) <= SLBoundary.start_l adc_sl) ->
  GetLateralBounds config_ info adc_sl frenet_point qp_delta_s path_length
    reference_line obstacles
  = Returns
      (map (fun i => (- snd (lane i), fst (lane i))) (seq 0 N))
      (map (fun i => LaneWidthQuery (station start_s qp_delta_s i)) (seq 0 N)).
Proof.
  intros N start_s accumulated_s lane Hsize Hnone Hin.
  unfold GetLateralBounds. rewrite Hsize. cbn [defined]. rewrite bind_ret_l.
  fold N. fold start_s.
  rewrite (expand_inside adc_sl qp_delta_s reference_line (repeat (0, 0) N)
             start_s)
    by (rewrite repeat_length; exact Hin).
  rewrite repeat_length. cbn [bind]. fold accumulated_s.
  rewrite (shrink_all_skips _ _ _ _ _ _ accumulated_s _ _
             (Qeq_refl accumulated_s) Hnone).
  now rewrite app_nil_r.
Qed.

Lemma lane_corridor_without_obstacles_witness :
  GetLateralBounds Scene.narrow_buffer
    (Scene.info [Scene.moving 0 1 0.5 1.5; Scene.static 2.5 4 0.5 1.5])
    Scene.adc Scene.origin 1 2 Scene.narrowing []
  = Returns
      (map (fun i =>
              (- snd (ReferenceLine.lane_width Scene.narrowing (station 0 1 i)),
               fst (ReferenceLine.lane_width Scene.narrowing (station 0 1 i))))
         (seq 0 (Z.to_nat 2)))
      (map (fun i => LaneWidthQuery (station 0 1 i)) (seq 0 (Z.to_nat 2))).
Proof.
  apply (lane_corridor_without_obstacles Scene.narrow_buffer
           (Scene.info [Scene.moving 0 1 0.5 1.5; Scene.static 2.5 4 0.5 1.5])
           Scene.adc Scene.origin 1 2 Scene.narrowing [] 2).
  - reflexivity.
  - intros o [ <- | [ <- | [] ] ]; reflexivity.
  - intros i Hi. destruct i as [ | [ | i ] ]; try (simpl in Hi; lia);
      split; discriminate.
Defined.

(** * Further properties of [Process] and [Init] *)

(** What a call of [Process] that returns has gone through. *)
Lemma Process_returns
      {St : Type} `{LateralQPOptimizer St} (NDEBUG : bool)
      (self self' : QpPiecewiseJerkPathOptimizer.t St)
      (speed_data : SpeedData.t) (reference_line : ReferenceLine.t)
      (init_point : TrajectoryPoint.t) (path_data path_data' : PathData.t)
      (status : Status.t) (q : list Query) :
  Process NDEBUG self speed_data reference_line init_point path_data
  = Returns (status, path_data', self') q ->
  (QpPiecewiseJerkPathOptimizer.is_init_ self = false
   /\ status = NotInitialized /\ path_data' = path_data /\ self' = self)
  \/ (QpPiecewiseJerkPathOptimizer.is_init_ self = true
      /\ exists lateral_bounds optimizer success optimizer',
           QpPiecewiseJerkPathOptimizer.lateral_qp_optimizer_ self
           = Some optimizer
           /\ optimize optimizer
                (FrenetFramePoint.l
                   (ReferenceLine.GetFrenetPoint reference_line init_point),
                 FrenetFramePoint.dl
                   (ReferenceLine.GetFrenetPoint reference_line init_point),
                 FrenetFramePoint.ddl
                   (ReferenceLine.GetFrenetPoint reference_line init_point))
                (QpPiecewiseJerkPathConfig.qp_delta_s
                   (QpPiecewiseJerkPathOptimizer.config_ self))
                lateral_bounds
              = (success, optimizer')
           /\ self' = QpPiecewiseJerkPathOptimizer.with_optimizer self optimizer'
           /\ (if success then
                 status = Status.OK
                 /\ PathData.reference_line_ path_data' = Some reference_line
               else
                 status = OptimizationFailed /\ path_data' = path_data
                 /\ NDEBUG = true)).
Proof.
  intro Hrun. unfold Process in Hrun.
  destruct (QpPiecewiseJerkPathOptimizer.is_init_ self) eqn:Hinit;
    cbn [negb] in Hrun.
  - right. split; [ reflexivity | ].
    apply bind_returns in Hrun.
    destruct Hrun as (lb & q1 & q2 & _ & Hrun & _).
    apply bind_returns in Hrun.
    destruct Hrun as (o & q3 & q4 & Ho & Hrun & _).
    destruct (QpPiecewiseJerkPathOptimizer.lateral_qp_optimizer_ self)
      as [ o' | ]; [ | discriminate ].
    cbn [defined ret] in Ho. injection Ho as -> _.
    destruct (optimize o _ _ lb) as [success o''] eqn:Hopt.
    exists lb, o, success, o''. split; [ reflexivity | ].
    split; [ exact Hopt | ].
    destruct success; cbn [negb] in Hrun.
    + injection Hrun as <- <- <- _. auto.
    + unfold DCHECK_false in Hrun.
      destruct NDEBUG; cbn in Hrun; [ | discriminate ].
      injection Hrun as <- <- <- _. auto.
  - left. injection Hrun as <- <- <- _. auto.
Qed.

(** X19. Whenever [Process] returns, its status is [Status::OK()], or else
    it is one of the two errors and the path data is left as it was; and
    in every case the component keeps its initialisation flag, its
    configuration and its reference line info: at most the state of the
    optimizer has changed. *)
Theorem Process_fails_without_a_path
        {St : Type} `{LateralQPOptimizer St} (NDEBUG : bool)
        (self self' : QpPiecewiseJerkPathOptimizer.t St)
        (speed_data : SpeedData.t) (reference_line : ReferenceLine.t)
        (init_point : TrajectoryPoint.t) (path_data path_data' : PathData.t)
        (status : Status.t) (q : list Query) :
  Process NDEBUG self speed_data reference_line init_point path_data
  = Returns (status, path_data', self') q ->
  (status = Status.OK
   \/ ((status = NotInitialized \/ status = OptimizationFailed)
       /\ path_data' = path_data))
  /\ QpPiecewiseJerkPathOptimizer.is_init_ self'
     = QpPiecewiseJerkPathOptimizer.is_init_ self
  /\ QpPiecewiseJerkPathOptimizer.config_ self'
     = QpPiecewiseJerkPathOptimizer.config_ self
  /\ QpPiecewiseJerkPathOptimizer.reference_line_info_ self'
     = QpPiecewiseJerkPathOptimizer.reference_line_info_ self.
Proof.
  intro Hrun. apply Process_returns in Hrun.
  destruct Hrun as [ (_ & -> & -> & ->)
                | (_ & lb & o & success & o' & _ & _ & -> & Hs) ].
  - auto.
  - destruct success.
    + destruct Hs as [-> _]. auto.
    + destruct Hs as (-> & -> & _). auto.
Qed.

Lemma Process_fails_without_a_path_witness :
  let self := Scene.component true Scene.narrow_buffer Scene.squeezing in
  let self' :=
    QpPiecewiseJerkPathOptimizer.with_optimizer self (Scene.Stub 1 []) in
  (OptimizationFailed = Status.OK
   \/ ((OptimizationFailed = NotInitialized
        \/ OptimizationFailed = OptimizationFailed)
       /\ Scene.empty_path = Scene.empty_path))
  /\ QpPiecewiseJerkPathOptimizer.is_init_ self'
     = QpPiecewiseJerkPathOptimizer.is_init_ self
  /\ QpPiecewiseJerkPathOptimizer.config_ self'
     = QpPiecewiseJerkPathOptimizer.config_ self
  /\ QpPiecewiseJerkPathOptimizer.reference_line_info_ self'
     = QpPiecewiseJerkPathOptimizer.reference_line_info_ self.
Proof.
  intros self self'.
  apply (Process_fails_without_a_path true self self' Scene.no_speed
           Scene.straight (Scene.pose 0) Scene.empty_path Scene.empty_path
           OptimizationFailed (map LaneWidthQuery [0; 1; 2; 3; 4])).
  reflexivity.
Defined.

(** X20. After [Init], whatever the component was before, a call of
    [Process] that returns never returns "Not init.": it returns
    [Status::OK()] or the optimizer's failure, and it has called the
    optimizer that [Init] has created, once. *)
Theorem Process_after_Init
        {St : Type} `{LateralQPOptimizer St} (NDEBUG : bool)
        (self self' : QpPiecewiseJerkPathOptimizer.t St)
        (config : ScenarioTaskConfig.t)
        (speed_data : SpeedData.t) (reference_line : ReferenceLine.t)
        (init_point : TrajectoryPoint.t) (path_data path_data' : PathData.t)
        (status : Status.t) (q : list Query) :
  Process NDEBUG (snd (Init self config)) speed_data reference_line init_point
    path_data
  = Returns (status, path_data', self') q ->
  status <> NotInitialized
  /\ (status = Status.OK \/ status = OptimizationFailed)
  /\ exists state step lateral_bounds,
       QpPiecewiseJerkPathOptimizer.lateral_qp_optimizer_ self'
       = Some (snd (optimize fresh state step lateral_bounds)).
Proof.
  intro Hrun. apply Process_returns in Hrun.
  destruct Hrun as [ (Hinit & _) | (_ & lb & o & success & o' & Ho & Hopt & -> & Hs) ].
  - discriminate Hinit.
  - cbn in Ho. injection Ho as <-.
    assert (Hstatus : status = Status.OK \/ status = OptimizationFailed).
    { destruct success; [ left | right ]; apply Hs. }
    split; [ | split; [ exact Hstatus | ] ].
    + destruct Hstatus as [ -> | -> ]; discriminate.
    + eexists. eexists. exists lb. cbn. now rewrite Hopt.
Qed.

Lemma Process_after_Init_witness :
  let self := Scene.component false Scene.wide_buffer [] in
  let config := ScenarioTaskConfig.Build (Some Scene.narrow_buffer) in
  Status.OK <> NotInitialized
  /\ (Status.OK = Status.OK \/ Status.OK = OptimizationFailed)
  /\ exists state step lateral_bounds,
       QpPiecewiseJerkPathOptimizer.lateral_qp_optimizer_
         (QpPiecewiseJerkPathOptimizer.with_optimizer (snd (Init self config))
            (snd (optimize fresh (0, 0, 0) 1 (repeat (-3, 3) 5%nat))))
       = Some (snd (optimize fresh state step lateral_bounds)).
Proof.
  intros self config.
  apply (Process_after_Init true self _ config Scene.no_speed Scene.straight
           (Scene.pose 50) Scene.empty_path
           (PathData.Build (Some Scene.straight)
              (map (fun point =>
                      FrenetFramePoint.set_s point
                        (50 + FrenetFramePoint.s point))
                 (GetFrenetFramePath
                    (snd (optimize fresh (0, 0, 0) 1 (repeat (-3, 3) 5%nat))))))
           Status.OK (map LaneWidthQuery [50; 51; 52; 53; 54])).
  reflexivity.
Defined.

(** * The obstacles that start behind the start point *)

(** X21. With a positive step, the loop body has no defined result on a
    static obstacle in the longitudinal range that starts a step or more
    behind [start_s]: the quotient that [find_s_iter] converts to [size_t]
    is [-1] or less. *)
Theorem obstacle_behind_start_undefined
        (config_ : QpPiecewiseJerkPathConfig.t) (adc_sl : SLBoundary.t)
        (qp_delta_s : Q) (reference_line : ReferenceLine.t)
        (start_s accumulated_s : Q) (v : Bounds) (o : PathObstacle.t) :
  let obstacle_sl := PathObstacle.PerceptionSLBoundary o in
  0 < qp_delta_s ->
  Obstacle.IsStatic (PathObstacle.obstacle o) = true ->
  ~ SLBoundary.end_s obstacle_sl < start_s ->
  ~ accumulated_s < SLBoundary.start_s obstacle_sl ->
  SLBoundary.start_s obstacle_sl <= start_s - qp_delta_s ->
  shrink config_ adc_sl qp_delta_s reference_line start_s accumulated_s v o
  = Undefined.
Proof.
  intros obstacle_sl Hd Hst Hb Hy Hbehind. unfold shrink.
  rewrite Hst. cbn [negb]. fold obstacle_sl.
  replace (Qltb (SLBoundary.end_s obstacle_sl) start_s)
    with false by (symmetry; apply Qltb_false; now apply Qnot_lt_le).
  replace (Qltb accumulated_s (SLBoundary.start_s obstacle_sl))
    with false by (symmetry; apply Qltb_false; now apply Qnot_lt_le).
  cbn [orb].
  now rewrite (find_s_iter_behind qp_delta_s start_s v
                 (SLBoundary.start_s obstacle_sl) Hd Hbehind).
Qed.

Lemma obstacle_behind_start_undefined_witness :
  shrink Scene.narrow_buffer Scene.adc 1 Scene.straight 0 2
    [(-3, 3); (-3, 3)] (Scene.static (-1) 0.5 1.5 3)
  = Undefined.
Proof.
  apply (obstacle_behind_start_undefined Scene.narrow_buffer Scene.adc 1
           Scene.straight 0 2 [(-3, 3); (-3, 3)] (Scene.static (-1) 0.5 1.5 3)).
  - reflexivity.
  - reflexivity.
  - discriminate.
  - discriminate.
  - discriminate.
Defined.
